(** * PAWS data pipeline: record normalisation and match keys

    A shallow embedding of the notebook [load_standardized_tables.ipynb]:
    the field normaliser [clean_entries], the symbol filter [strip_symbols],
    the address canonicaliser [combine_address_columns], the three cells
    that derive the [match_*] columns of the petpoint, volgistics and
    salesforce-contacts tables, and the label cleaning of
    [import_csv_and_clean_cols].

    Conventions.
    - A Python [str] is a sequence of code points.  The development covers the
      code points U+0000..U+00FF, one [ascii] each, with Python's own
      classification on that range ([str.isspace], [str.lower]).
    - A pandas [Series] is the list of its cells in row order; every Series
      of one DataFrame shares the DataFrame's index, so element-wise
      operations pair cells by position.
    - A DataFrame is a finite map from column name to Series; reading a
      column that does not exist raises [KeyError], modelled by [None]. *)

From stdpp Require Import gmap strings list.
From Stdlib Require Import Ascii.

(** ** Python strings *)

Module Py.

Abbreviation pystr := (list ascii).

(** The space character. *)
Abbreviation SP := (" "%char).

(** A literal. *)
Definition lit (s : string) : pystr := String.list_ascii_of_string s.

(** [Py_UNICODE_ISSPACE] below U+0100: TAB..CR, FS..US, SPACE, NEL, NBSP.
    Both [str.strip()] and the regex class [\s] (on [str] patterns) use it. *)
Definition isspace (c : ascii) : bool :=
  let n := N_of_ascii c in
  ((9 <=? n) && (n <=? 13) || (28 <=? n) && (n <=? 32)
   || (n =? 133) || (n =? 160))%N.

(** [str.lower] on one code point below U+0100: A-Z and the Latin-1 capitals
    U+00C0..U+00DE (the multiplication sign U+00D7 excepted) move up by 32. *)
Definition lower_char (c : ascii) : ascii :=
  let n := N_of_ascii c in
  if ((65 <=? n) && (n <=? 90)
      || (192 <=? n) && (n <=? 222) && negb (n =? 215))%N
  then ascii_of_N (n + 32) else c.

(** [s.lower()] on a string of code points below U+0100, where it works
    code point by code point.  (Above that range it does not: U+0130 is
    lower-cased to two code points.) *)
Definition lower (s : pystr) : pystr := map lower_char s.

(** [s.lstrip()], [s.rstrip()], [s.strip()] with no argument. *)
Fixpoint lstrip (s : pystr) : pystr :=
  match s with
  | [] => []
  | c :: r => if isspace c then lstrip r else s
  end.

Definition rstrip (s : pystr) : pystr := reverse (lstrip (reverse s)).

Definition strip (s : pystr) : pystr := rstrip (lstrip s).

(** [re.sub(r'\s+', ' ', s)]: scanning left to right, every maximal run of
    whitespace is replaced by one space.  [in_run] records that the previous
    code point belonged to a run whose replacement is already emitted. *)
Fixpoint sub_ws_runs (in_run : bool) (s : pystr) : pystr :=
  match s with
  | [] => []
  | c :: r =>
      if isspace c
      then (if in_run then sub_ws_runs true r else SP :: sub_ws_runs true r)
      else c :: sub_ws_runs false r
  end.

Definition re_sub_ws (s : pystr) : pystr := sub_ws_runs false s.

(** [sep.join(parts)]. *)
Fixpoint join (sep : pystr) (parts : list pystr) : pystr :=
  match parts with
  | [] => []
  | [x] => x
  | x :: rest => x ++ sep ++ join sep rest
  end.

(** [needle in hay] on strings is a substring test. *)
Fixpoint startswith (s p : pystr) {struct p} : bool :=
  match p, s with
  | [], _ => true
  | _ :: _, [] => false
  | a :: p', b :: s' => bool_decide (a = b) && startswith s' p'
  end.

Fixpoint contains (hay needle : pystr) : bool :=
  startswith hay needle ||
  match hay with
  | [] => false
  | _ :: hay' => contains hay' needle
  end.

(** The values a cell of a [dtype=str] table can hold: a string, or a
    missing value ([None], or the float [nan] that [read_csv] produces). *)
Inductive pyval : Type :=
  | PyNone
  | PyNaN
  | PyStr (s : pystr).

(** [pd.isnull] on a scalar. *)
Definition isnull (v : pyval) : bool :=
  match v with
  | PyStr _ => false
  | PyNone | PyNaN => true
  end.

(** The builtin [str]. *)
Definition str (v : pyval) : pystr :=
  match v with
  | PyStr s => s
  | PyNone => lit "None"
  | PyNaN => lit "nan"
  end.

End Py.

Export Py.

(** ** The notebook's functions *)

(** [clean_entries(entry)] *)
Definition clean_entries (entry : pyval) : pystr :=
  let entry := if isnull entry then PyStr [] else entry in
  let entry := strip (lower (str entry)) in
  let entry := re_sub_ws entry in
  entry.

Definition default_kept_chars : pystr :=
  lit "- 1234567890abcdefghijklmnopqrstuvwxyz".

(** [strip_symbols(char_string, kept_chars)]:
    [''.join([c for c in char_string if c in kept_chars])].  Iterating over a
    string yields its one-character substrings. *)
Definition strip_symbols (char_string kept_chars : pystr) : pystr :=
  join []
       (List.filter (contains kept_chars) (map (λ c, [c]) char_string)).

(** [strip_symbols] called with one argument, as [Series.apply] does. *)
Definition strip_symbols_default (char_string : pystr) : pystr :=
  strip_symbols char_string default_kept_chars.

(** ** Whitespace-separated words *)

(** [tokens s] splits [s] at whitespace: the first component is the longest
    whitespace-free prefix of [s] (possibly empty), the second the non-empty
    whitespace-free blocks after it. *)
Definition cons_word (w : pystr) (ws : list pystr) : list pystr :=
  match w with
  | [] => ws
  | _ :: _ => w :: ws
  end.

Fixpoint tokens (s : pystr) : pystr * list pystr :=
  match s with
  | [] => ([], [])
  | c :: r =>
      let (w, ws) := tokens r in
      if isspace c then ([], cons_word w ws) else (c :: w, ws)
  end.

(** What [s.split()] returns. *)
Definition words (s : pystr) : list pystr :=
  let (w, ws) := tokens s in cons_word w ws.

Definition unwords (ws : list pystr) : pystr := join [SP] ws.

(** A non-empty block without whitespace. *)
Definition is_word (w : pystr) : Prop :=
  w ≠ [] ∧ Forall (λ c, isspace c = false) w.


Definition all_space (s : pystr) : bool := forallb isspace s.

(** ** pandas Series operations used by the notebook *)

(** [a + b] on two Series of strings with the same index: cell-wise
    concatenation. *)
Definition series_add (a b : list pystr) : list pystr := zip_with app a b.

(** [a + s] for a Series [a] and a scalar string [s]. *)
Definition series_add_scalar (a : list pystr) (s : pystr) : list pystr :=
  (λ x, x ++ s) <$> a.

(** [series.fillna(value)] *)
Definition fillna (value : pyval) (series : list pyval) : list pyval :=
  (λ v, if isnull v then value else v) <$> series.

(** [series.str[:n]] *)
Definition str_slice_to (n : nat) (series : list pystr) : list pystr :=
  take n <$> series.

(** [functools.reduce(function, sequence)] without an initial value; an empty
    sequence raises [TypeError]. *)
Definition reduce {A} (function : A → A → A) (sequence : list A) : option A :=
  match sequence with
  | [] => None
  | x :: rest => Some (foldl function x rest)
  end.

(** The lambda of [combine_address_columns]:
    [col_1.apply(clean_entries).apply(strip_symbols) + ' ' +
     col_2.apply(clean_entries).apply(strip_symbols)]. *)
Definition combine_lambda (col_1 col_2 : list pyval) : list pyval :=
  PyStr <$>
    series_add
      (series_add_scalar
         (strip_symbols_default <$> (clean_entries <$> col_1)) [SP])
      (strip_symbols_default <$> (clean_entries <$> col_2)).

(** [combine_address_columns(address_columns)] *)
Definition combine_address_columns (address_columns : list (list pyval))
    : option (list pystr) :=
  fmap (M:=list) clean_entries <$> reduce combine_lambda address_columns.

(** The canonical address string as the specification words it: normalise
    and symbol-filter each component on its own, join with single spaces,
    normalise the joined string again. *)
Definition canonical_address_reference (components : list pyval) : pystr :=
  clean_entries
    (PyStr (join [SP]
              ((λ c, strip_symbols_default (clean_entries c)) <$> components))).

(** What the reduce does to the cells of one row. *)
Definition row_lambda (acc c : pyval) : pyval :=
  PyStr ((strip_symbols_default (clean_entries acc) ++ [SP])
         ++ strip_symbols_default (clean_entries c)).

(** ** DataFrames and the three source cells *)

Abbreviation DataFrame := (gmap string (list pyval)).

(** [series.apply(clean_entries).apply(strip_symbols)] *)
Definition apply_clean_strip (series : list pyval) : list pystr :=
  strip_symbols_default <$> (clean_entries <$> series).

(** The statements that derive [match_name], [match_email], [match_cell]
    and [match_phone] in the petpoint cell. *)
Definition petpoint_match_keys (petpoint_df : DataFrame) : option DataFrame :=
  col ← petpoint_df !! "outcome_person_name";
  let petpoint_df := <["match_name" := PyStr <$> apply_clean_strip col]> petpoint_df in
  col ← petpoint_df !! "out_email";
  let petpoint_df := <["match_email" := PyStr <$> (clean_entries <$> col)]> petpoint_df in
  col ← petpoint_df !! "out_cell_phone";
  let petpoint_df := <["match_cell" := PyStr <$> apply_clean_strip col]> petpoint_df in
  col ← petpoint_df !! "out_home_phone";
  let petpoint_df := <["match_phone" := PyStr <$> apply_clean_strip col]> petpoint_df in
  Some petpoint_df.

(** The same statements of the volgistics cell. *)
Definition volgistics_match_keys (volgistics_df : DataFrame) : option DataFrame :=
  col ← volgistics_df !! "last_name_first_name";
  let volgistics_df := <["match_name" := PyStr <$> apply_clean_strip col]> volgistics_df in
  col ← volgistics_df !! "email";
  let volgistics_df := <["match_email" := PyStr <$> (clean_entries <$> col)]> volgistics_df in
  col ← volgistics_df !! "cell";
  let volgistics_df := <["match_cell" := PyStr <$> apply_clean_strip col]> volgistics_df in
  col ← volgistics_df !! "home";
  let volgistics_df := <["match_phone" := PyStr <$> apply_clean_strip col]> volgistics_df in
  Some volgistics_df.

(** The same statements of the salesforce-contacts cell; the name is
    [last_name] and [first_name], each cleaned and filtered, with a space
    between. *)
Definition sf_contacts_match_keys (sf_contacts_df : DataFrame) : option DataFrame :=
  last_name ← sf_contacts_df !! "last_name";
  first_name ← sf_contacts_df !! "first_name";
  let sf_contacts_df :=
    <["match_name" :=
        PyStr <$> series_add (series_add_scalar (apply_clean_strip last_name) [SP])
                             (apply_clean_strip first_name)]> sf_contacts_df in
  col ← sf_contacts_df !! "email";
  let sf_contacts_df := <["match_email" := PyStr <$> (clean_entries <$> col)]> sf_contacts_df in
  col ← sf_contacts_df !! "mobile";
  let sf_contacts_df := <["match_cell" := PyStr <$> apply_clean_strip col]> sf_contacts_df in
  col ← sf_contacts_df !! "phone";
  let sf_contacts_df := <["match_phone" := PyStr <$> apply_clean_strip col]> sf_contacts_df in
  Some sf_contacts_df.

(** [series.fillna('').apply(str).str[:5]], the postal-code component. *)
Definition postal_code_component (series : list pyval) : list pyval :=
  PyStr <$> str_slice_to 5 (str <$> fillna (PyStr []) series).

(** The [addr_components] list of each cell. *)
Definition petpoint_addr_components (petpoint_df : DataFrame)
    : option (list (list pyval)) :=
  c1 ← petpoint_df !! "out_street_name";
  c2 ← petpoint_df !! "out_street_type";
  c3 ← petpoint_df !! "out_street_direction";
  c4 ← petpoint_df !! "out_street_direction2";
  c5 ← petpoint_df !! "out_unit_number";
  c6 ← petpoint_df !! "out_city";
  c7 ← petpoint_df !! "out_province";
  c8 ← petpoint_df !! "out_postal_code";
  Some [c1; c2; c3; c4; c5; c6; c7; postal_code_component c8].

Definition volgistics_addr_components (volgistics_df : DataFrame)
    : option (list (list pyval)) :=
  c1 ← volgistics_df !! "street_1";
  c2 ← volgistics_df !! "street_2";
  c3 ← volgistics_df !! "street_3";
  c4 ← volgistics_df !! "city";
  c5 ← volgistics_df !! "state";
  c6 ← volgistics_df !! "zip";
  Some [c1; c2; c3; c4; c5; postal_code_component c6].

Definition sf_contacts_addr_components (sf_contacts_df : DataFrame)
    : option (list (list pyval)) :=
  c1 ← sf_contacts_df !! "mailing_street";
  c2 ← sf_contacts_df !! "mailing_city";
  c3 ← sf_contacts_df !! "mailing_state_province";
  c4 ← sf_contacts_df !! "mailing_zip_postal_code";
  Some [c1; c2; c3; postal_code_component c4].

(** [df['match_address_list'] = combine_address_columns(addr_components)] *)
Definition set_match_address_list (addr_components : list (list pyval))
    (df : DataFrame) : option DataFrame :=
  combined ← combine_address_columns addr_components;
  let df := <["match_address_list" := PyStr <$> (combined : list pystr)]> df in
  Some df.

(** The three sources, to state a property of all three cells at once. *)
Inductive source : Type := Petpoint | Volgistics | SfContacts.

Definition match_keys (src : source) : DataFrame → option DataFrame :=
  match src with
  | Petpoint => petpoint_match_keys
  | Volgistics => volgistics_match_keys
  | SfContacts => sf_contacts_match_keys
  end.

Definition addr_components (src : source)
    : DataFrame → option (list (list pyval)) :=
  match src with
  | Petpoint => petpoint_addr_components
  | Volgistics => volgistics_addr_components
  | SfContacts => sf_contacts_addr_components
  end.

(** The columns each cell reads, by role. *)
Definition name_columns (src : source) : list string :=
  match src with
  | Petpoint => ["outcome_person_name"]
  | Volgistics => ["last_name_first_name"]
  | SfContacts => ["last_name"; "first_name"]
  end.

Definition email_column (src : source) : string :=
  match src with
  | Petpoint => "out_email"
  | Volgistics => "email"
  | SfContacts => "email"
  end.

Definition cell_column (src : source) : string :=
  match src with
  | Petpoint => "out_cell_phone"
  | Volgistics => "cell"
  | SfContacts => "mobile"
  end.

Definition phone_column (src : source) : string :=
  match src with
  | Petpoint => "out_home_phone"
  | Volgistics => "home"
  | SfContacts => "phone"
  end.

(** The address columns other than the postal code, in order. *)
Definition street_columns (src : source) : list string :=
  match src with
  | Petpoint =>
      ["out_street_name"; "out_street_type"; "out_street_direction";
       "out_street_direction2"; "out_unit_number"; "out_city"; "out_province"]
  | Volgistics => ["street_1"; "street_2"; "street_3"; "city"; "state"]
  | SfContacts => ["mailing_street"; "mailing_city"; "mailing_state_province"]
  end.

Definition postal_code_column (src : source) : string :=
  match src with
  | Petpoint => "out_postal_code"
  | Volgistics => "zip"
  | SfContacts => "mailing_zip_postal_code"
  end.

(** The match name of one row from its name cells: one cleaned and filtered
    cell, or two with a space between. *)
Definition match_name_of (cells : list pyval) : pystr :=
  match cells with
  | [n] => strip_symbols_default (clean_entries n)
  | [l; f] =>
      (strip_symbols_default (clean_entries l) ++ [SP])
      ++ strip_symbols_default (clean_entries f)
  | _ => []
  end.

(** ** The address-expansion boundary *)

Section expansion.

(** [postal.expand.expand_address(address, languages=...)] and [json.dumps]
    are external; [None] stands for a raised exception. *)
Variable expand_address : pystr → list pystr → option (list pystr).
Variable json_dumps : list pystr → pystr.

(** [series.apply(expand_address, languages=['en'])] *)
Definition apply_expand_address (series : list pyval)
    : option (list (list pystr)) :=
  mapM (λ v, match v with
             | PyStr s => expand_address s [lit "en"]
             | PyNone | PyNaN => None
             end) series.

(** [df['match_address_list'] =
      df['match_address_list'].apply(expand_address, languages=['en'])
                              .apply(json.dumps)] *)
Definition expand_match_address_list (df : DataFrame) : option DataFrame :=
  col ← df !! "match_address_list";
  expanded ← apply_expand_address col;
  let dumped : list pystr := json_dumps <$> expanded in
  let df := <["match_address_list" := PyStr <$> dumped]> df in
  Some df.

(** A whole cell, from the imported table to the table that is stored. *)
Definition source_cell (src : source) (df : DataFrame) : option DataFrame :=
  df ← match_keys src df;
  components ← addr_components src df;
  df ← set_match_address_list components df;
  expand_match_address_list df.

End expansion.

(** [json.dumps] on a list of strings none of which needs escaping: the
    strings in double quotes, separated by a comma and a space, in square
    brackets. *)
Definition json_dumps_plain (l : list pystr) : pystr :=
  lit "[" ++ join (lit ", ") ((λ s, ["034"%char] ++ s ++ ["034"%char]) <$> l)
  ++ lit "]".

(** A petpoint table of one row, for the examples. *)
Definition petpoint_example : DataFrame :=
  list_to_map
    [("outcome_person_name", [PyStr (lit "O'Neil,  Jane")]);
     ("out_email", [PyStr (lit " Jane.Doe@X.COM ")]);
     ("out_cell_phone", [PyStr (lit "(215) 555-0100")]);
     ("out_home_phone", [PyNaN]);
     ("out_street_name", [PyStr (lit "Main")]);
     ("out_street_type", [PyStr (lit "St.")]);
     ("out_street_direction", [PyNaN]);
     ("out_street_direction2", [PyNaN]);
     ("out_unit_number", [PyStr (lit "#4")]);
     ("out_city", [PyStr (lit "Philadelphia")]);
     ("out_province", [PyStr (lit "PA")]);
     ("out_postal_code", [PyStr (lit "19104-2345")])].

(** ** The identity linker *)

Module Linker.

(** Modelled from the spec: the data model of section 3.  The notebook loads
    every source into a table of its own and has no master table and no
    merge step; the records below follow the specification's MatchKeySet,
    MasterIdentity and Link. *)
Record MatchKeySet : Type := {
  name : pystr;
  email : pystr;
  cell : pystr;
  phone : pystr;
  address_variants : list pystr
}.

(** Modelled from the spec: a master-table row, with its identity id, the
    match keys seen so far and a back-reference (source name, source row id)
    to every record linked to it. *)
Record MasterIdentity : Type := {
  identity_id : nat;
  keys : MatchKeySet;
  links : list (string * nat)
}.

(** Modelled from the spec: the master table; identity ids are handed out in
    increasing order. *)
Record master_table : Type := {
  identities : list MasterIdentity;
  next_id : nat
}.

Definition empty_table : master_table := {| identities := []; next_id := 0 |}.

Definition nonempty (s : pystr) : bool := negb (bool_decide (s = [])).

(** Modelled from the spec: the matching rules of section 4.5, exact match
    only.  Rule 1, the record's e-mail is not empty and equals the
    identity's. *)
Definition rule_email (k : MatchKeySet) (m : MasterIdentity) : bool :=
  nonempty (email k) && bool_decide (email k = email (keys m)).

(** Modelled from the spec: rule 2, the record's cell number is not empty
    and equals the identity's cell or phone number. *)
Definition rule_cell (k : MatchKeySet) (m : MasterIdentity) : bool :=
  nonempty (cell k)
  && (bool_decide (cell k = cell (keys m))
      || bool_decide (cell k = phone (keys m))).

(** Modelled from the spec: rule 3, the same for the record's phone
    number. *)
Definition rule_phone (k : MatchKeySet) (m : MasterIdentity) : bool :=
  nonempty (phone k)
  && (bool_decide (phone k = cell (keys m))
      || bool_decide (phone k = phone (keys m))).

(** Modelled from the spec: rule 4, the record's name is not empty and is
    the identity's name, and one of the record's address variants other
    than the empty string is among the identity's. *)
Definition rule_name_address (k : MatchKeySet) (m : MasterIdentity) : bool :=
  nonempty (name k)
  && bool_decide (name k = name (keys m))
  && existsb (λ a, nonempty a
                   && bool_decide (a ∈ address_variants (keys m)))
             (address_variants k).

(** The first row, in table order, that satisfies [rule], with its index. *)
Fixpoint find_row (rule : MasterIdentity → bool) (rows : list MasterIdentity)
    : option (nat * MasterIdentity) :=
  match rows with
  | [] => None
  | m :: rest =>
      if rule m then Some (0, m)
      else prod_map S id <$> find_row rule rest
  end.

(** Modelled from the spec: the rules are tried in priority order and the
    first hit wins; among the rows that satisfy a rule the earliest is
    taken. *)
Definition find_match (k : MatchKeySet) (rows : list MasterIdentity)
    : option (nat * MasterIdentity) :=
  match find_row (rule_email k) rows with
  | Some hit => Some hit
  | None =>
  match find_row (rule_cell k) rows with
  | Some hit => Some hit
  | None =>
  match find_row (rule_phone k) rows with
  | Some hit => Some hit
  | None => find_row (rule_name_address k) rows
  end end end.

(** Modelled from the spec: existing non-empty values are never
    overwritten, only empty fields are filled. *)
Definition fill (old new : pystr) : pystr :=
  if nonempty old then old else new.

(** Modelled from the spec: the address variants are extended with the
    candidates not already present. *)
Definition extend (old new : list pystr) : list pystr :=
  foldl (λ acc a, if bool_decide (a ∈ acc) then acc else acc ++ [a]) old new.

(** Modelled from the spec: the union of a matched identity with the new
    record's keys, and the appended back-reference. *)
Definition merge (m : MasterIdentity) (k : MatchKeySet)
    (source_name : string) (source_row_id : nat) : MasterIdentity :=
  {| identity_id := identity_id m;
     keys := {| name := fill (name (keys m)) (name k);
                email := fill (email (keys m)) (email k);
                cell := fill (cell (keys m)) (cell k);
                phone := fill (phone (keys m)) (phone k);
                address_variants :=
                  extend (address_variants (keys m)) (address_variants k) |};
     links := links m ++ [(source_name, source_row_id)] |}.

(** Modelled from the spec: [link(record_key, source_name, source_row_id,
    master_table) -> identity_id] of section 4.5, returning the identity id
    and the updated table.  A match updates the matched row in place; no
    match creates a row with a fresh id; the Link is recorded in both
    cases. *)
Definition link (record_key : MatchKeySet) (source_name : string)
    (source_row_id : nat) (table : master_table) : nat * master_table :=
  match find_match record_key (identities table) with
  | Some (i, m) =>
      (identity_id m,
       {| identities :=
            <[i := merge m record_key source_name source_row_id]>
              (identities table);
          next_id := next_id table |})
  | None =>
      let new_id := next_id table in
      (new_id,
       {| identities :=
            identities table
            ++ [{| identity_id := new_id; keys := record_key;
                   links := [(source_name, source_row_id)] |}];
          next_id := S new_id |})
  end.

(** One call of [link]. *)
Record link_op : Type := {
  op_key : MatchKeySet;
  op_source : string;
  op_row : nat
}.

Definition op_record (op : link_op) : string * nat := (op_source op, op_row op).

Definition apply_op (table : master_table) (op : link_op) : master_table :=
  (link (op_key op) (op_source op) (op_row op) table).2.

(** A sequence of calls, in order. *)
Definition run (ops : list link_op) (table : master_table) : master_table :=
  foldl apply_op table ops.

(** The Link relation held by a table. *)
Definition linked (table : master_table) (record : string * nat) (id : nat)
    : Prop :=
  ∃ m, m ∈ identities table ∧ identity_id m = id ∧ record ∈ links m.

Definition link_unique (table : master_table) : Prop :=
  ∀ record id1 id2,
    linked table record id1 → linked table record id2 → id1 = id2.

(** All Links of a table, row by row. *)
Definition row_links (m : MasterIdentity) : list ((string * nat) * nat) :=
  (λ r, (r, identity_id m)) <$> links m.

Definition all_links (rows : list MasterIdentity)
    : list ((string * nat) * nat) :=
  rows ≫= row_links.

End Linker.

(** ** Importing a table *)

(** [re.sub(cls+, repl, s)] for a character class [cls] and a one-character
    replacement: every maximal run of characters of the class becomes one
    [repl].  [in_run] has the meaning it has in [sub_ws_runs]. *)
Fixpoint sub_runs (cls : ascii → bool) (repl : ascii) (in_run : bool)
    (s : pystr) : pystr :=
  match s with
  | [] => []
  | c :: r =>
      if cls c
      then (if in_run then sub_runs cls repl true r
            else repl :: sub_runs cls repl true r)
      else c :: sub_runs cls repl false r
  end.

Definition is_period (c : ascii) : bool := bool_decide (c = "."%char).

(** What the three assignments to [df.columns] do to one label:
    [.str.lower().str.strip()], then [re.sub(r'\s+', '_', x)], then
    [re.sub(r'\.+', '_', x)]. *)
Definition clean_column_label (x : pystr) : pystr :=
  let x := strip (lower x) in
  let x := sub_runs isspace "_"%char false x in
  let x := sub_runs is_period "_"%char false x in
  x.

(** A table as [read_csv] returns it: the columns in file order, each with
    its label. *)
Abbreviation frame := (list (list ascii * list pyval)).

(** [df.drop(label, axis=1)]: the columns that carry [label] are removed. *)
Definition drop_column (label : pystr) (df : frame) : frame :=
  filter (λ col, col.1 ≠ label) df.

(** [df.columns = labels]: the labels are replaced in order. *)
Definition set_columns (labels : list pystr) (df : frame) : frame :=
  zip labels df.*2.

(** [import_csv_and_clean_cols(csv, drop_first_col)], from the table that
    [pd.read_csv(csv, encoding='cp1252', dtype=str)] returned.
    [df.columns[0]] raises [IndexError] on a table without columns. *)
Definition import_csv_and_clean_cols (df : frame) (drop_first_col : bool)
    : option frame :=
  df ← (if drop_first_col
        then first ← head df.*1; Some (drop_column first df)
        else Some df);
  Some (set_columns (clean_column_label <$> df.*1) df).

(** The table the cells index by label, when the labels are distinct. *)
Definition as_DataFrame (df : frame) : DataFrame :=
  list_to_map (prod_map String.string_of_list_ascii id <$> df).

(** The columns a cell reads. *)
Definition match_key_columns (src : source) : list string :=
  name_columns src ++ [email_column src; cell_column src; phone_column src].

Definition address_columns (src : source) : list string :=
  street_columns src ++ [postal_code_column src].

(** The columns a cell writes. *)
Definition match_columns : list string :=
  ["match_name"; "match_email"; "match_cell"; "match_phone";
   "match_address_list"].

(** The table [df] has a column [k] of [n] rows. *)
Definition has_rows (df : DataFrame) (n : nat) (k : string) : Prop :=
  ∃ col, df !! k = Some col ∧ length col = n.

(** A character that label cleaning leaves alone: no whitespace, no
    period, and its own lower case. *)
Definition plain_label (c : ascii) : Prop :=
  isspace c = false ∧ is_period c = false ∧ lower_char c = c.

(** ** The linking pass *)

(** Modelled from the spec: the pass of section 5.  A source is processed
    as one sequential pass in input row order, so its records are linked
    once each, the row at position [i] under the row id [i]. *)
Definition pass_ops (source_name : string)
    (records : list Linker.MatchKeySet) : list Linker.link_op :=
  imap (λ i k, {| Linker.op_key := k; Linker.op_source := source_name;
                  Linker.op_row := i |}) records.

(** Modelled from the spec: the sources are processed one after the other
    in a fixed order. *)
Definition pipeline_ops (sources : list (string * list Linker.MatchKeySet))
    : list Linker.link_op :=
  sources ≫= λ src, pass_ops src.1 src.2.
Example clean_entries_ex1 :
  clean_entries (PyStr (lit "  Jane   DOE ")) = lit "jane doe".
Proof. reflexivity. Qed.

Example strip_symbols_ex1 :
  strip_symbols_default (lit "o'neil, j.") = lit "oneil j".
Proof. reflexivity. Qed.

Section chars.

Lemma isspace_space : isspace SP = true.
Proof. reflexivity. Qed.

Lemma isspace_lower_char c : isspace (lower_char c) = isspace c.
Proof. by destruct c as [[] [] [] [] [] [] [] []]. Qed.

Lemma lower_char_idemp c : lower_char (lower_char c) = lower_char c.
Proof. by destruct c as [[] [] [] [] [] [] [] []]. Qed.

Lemma lower_char_space c : isspace c = true → lower_char c = c.
Proof. by destruct c as [[] [] [] [] [] [] [] []]. Qed.

End chars.

(** ** Words, [join] and whitespace *)

Section words.

Implicit Types (s t : pystr) (w : pystr) (ws : list pystr) (c : ascii).

Lemma cons_word_app w ws ws' : cons_word w (ws ++ ws') = cons_word w ws ++ ws'.
Proof. by destruct w. Qed.

Lemma tokens_cons c r :
  tokens (c :: r) =
  if isspace c then ([], words r) else (c :: (tokens r).1, (tokens r).2).
Proof. unfold words. simpl. by destruct (tokens r), (isspace c). Qed.

Lemma words_cons c r :
  words (c :: r) = if isspace c then words r else (c :: (tokens r).1) :: (tokens r).2.
Proof. unfold words at 1. rewrite tokens_cons. by destruct (isspace c). Qed.

Lemma words_alt s : words s = cons_word (tokens s).1 (tokens s).2.
Proof. unfold words. by destruct (tokens s). Qed.

Lemma tokens_all_space s : all_space s = true → tokens s = ([], []).
Proof.
  induction s as [|c r IH]; [done|].
  intros [Hc Hr]%andb_prop. rewrite tokens_cons, Hc, words_alt, (IH Hr). done.
Qed.

Lemma words_nil_all_space s : words s = [] → all_space s = true.
Proof.
  induction s as [|c r IH]; [done|].
  rewrite words_cons. simpl. destruct (isspace c); [apply IH | done].
Qed.

(** A whitespace character ends the word before it. *)
Lemma tokens_app_space s c t :
  isspace c = true →
  tokens (s ++ c :: t) = ((tokens s).1, (tokens s).2 ++ words t).
Proof.
  intros Hc. induction s as [|d r IH].
  - simpl app. rewrite tokens_cons, Hc. done.
  - rewrite <-app_comm_cons, !tokens_cons, (words_alt (r ++ _)), IH. simpl.
    destruct (isspace d); simpl; [|done]. by rewrite cons_word_app, <-words_alt.
Qed.

Lemma words_app_space s c t :
  isspace c = true → words (s ++ c :: t) = words s ++ words t.
Proof.
  intros Hc. rewrite (words_alt (s ++ _)), tokens_app_space by done.
  simpl. by rewrite cons_word_app, <-words_alt.
Qed.

Lemma tokens_word w :
  Forall (λ c, isspace c = false) w → tokens w = (w, []).
Proof.
  induction 1 as [|c r Hc _ IH]; [done|].
  by rewrite tokens_cons, Hc, IH.
Qed.

Lemma words_word w : is_word w → words w = [w].
Proof. intros [Hne Hw]. rewrite words_alt, tokens_word by done. by destruct w. Qed.

Lemma tokens_is_word s :
  Forall (λ c, isspace c = false) (tokens s).1 ∧ Forall is_word (tokens s).2.
Proof.
  induction s as [|c r [IH1 IH2]]; [by split; constructor|].
  rewrite tokens_cons. destruct (isspace c) eqn:Hc; simpl.
  - split; [constructor|]. rewrite words_alt.
    destruct (tokens r).1 eqn:E; simpl; [done|].
    constructor; [|done]. by split.
  - split; [by constructor | done].
Qed.

Lemma words_is_word s : Forall is_word (words s).
Proof.
  destruct (tokens_is_word s) as [H1 H2]. rewrite words_alt.
  destruct (tokens s).1 eqn:E; simpl; [done|].
  constructor; [|done]. by split.
Qed.

Lemma join_cons sep x ws :
  join sep (x :: ws) = x ++ List.concat (map (λ y, sep ++ y) ws).
Proof.
  revert x. induction ws as [|y ws IH]; intros x.
  - simpl. by rewrite app_nil_r.
  - change (join sep (x :: y :: ws)) with (x ++ sep ++ join sep (y :: ws)).
    rewrite IH. simpl. by rewrite <-!app_assoc.
Qed.

Lemma join_app_sep sep ws ws' :
  ws ≠ [] → ws' ≠ [] →
  join sep (ws ++ ws') = join sep ws ++ sep ++ join sep ws'.
Proof.
  intros Hws Hws'. destruct ws as [|x ws]; [done|]. destruct ws' as [|y ws']; [done|].
  rewrite <-app_comm_cons, !join_cons, map_app, List.concat_app. simpl.
  by rewrite <-!app_assoc.
Qed.

Lemma words_unwords ws : Forall is_word ws → words (unwords ws) = ws.
Proof.
  unfold unwords. induction 1 as [|w ws Hw Hws IH]; [done|].
  destruct ws as [|w' ws].
  - simpl. by apply words_word.
  - change (join [SP] (w :: w' :: ws)) with (w ++ SP :: join [SP] (w' :: ws)).
    rewrite words_app_space by done. rewrite IH, words_word by done. done.
Qed.

Lemma words_lstrip s : words (lstrip s) = words s.
Proof.
  induction s as [|c r IH]; [done|]. simpl. rewrite (words_cons c r).
  destruct (isspace c) eqn:Hc; [done|]. by rewrite words_cons, Hc.
Qed.

Lemma lstrip_app s t :
  lstrip (s ++ t) = if all_space s then lstrip t else lstrip s ++ t.
Proof.
  induction s as [|c r IH]; [done|]. simpl. destruct (isspace c); [apply IH | done].
Qed.

Lemma all_space_reverse s : all_space (reverse s) = all_space s.
Proof.
  unfold all_space. apply eq_true_iff_eq. rewrite !forallb_forall.
  setoid_rewrite <-list_elem_of_In. by setoid_rewrite elem_of_reverse.
Qed.

Lemma lstrip_all_space s : all_space s = true → lstrip s = [].
Proof.
  induction s as [|c r IH]; [done|]. simpl.
  intros [Hc Hr]%andb_prop. rewrite Hc. by apply IH.
Qed.

Lemma rstrip_cons c r :
  rstrip (c :: r) = if all_space (c :: r) then [] else c :: rstrip r.
Proof.
  unfold rstrip. rewrite reverse_cons, lstrip_app, all_space_reverse.
  simpl. destruct (all_space r) eqn:Hr.
  - rewrite andb_true_r. rewrite (lstrip_all_space (reverse r))
      by (by rewrite all_space_reverse).
    by destruct (isspace c).
  - rewrite andb_false_r. by rewrite reverse_app.
Qed.

Lemma rstrip_nil : rstrip [] = [].
Proof. done. Qed.

(** [re.sub] after [rstrip], in terms of the tokens. *)
Lemma sub_ws_runs_rstrip s :
  sub_ws_runs false (rstrip s)
    = (tokens s).1 ++ List.concat (map (λ w, SP :: w) (tokens s).2)
  ∧ sub_ws_runs true (rstrip s) = unwords (words s).
Proof.
  induction s as [|c r [IH1 IH2]]; [done|].
  rewrite rstrip_cons. destruct (all_space (c :: r)) eqn:Hall.
  { rewrite words_alt, tokens_all_space by done. done. }
  rewrite words_cons, tokens_cons. simpl in Hall.
  destruct (isspace c) eqn:Hc; simpl; rewrite Hc.
  - rewrite IH2. split; [|done].
    destruct (words r) as [|w ws] eqn:Hw.
    { apply words_nil_all_space in Hw. simpl in Hall. congruence. }
    unfold unwords. rewrite join_cons. done.
  - rewrite IH1. split; [done|]. unfold unwords. by rewrite join_cons.
Qed.

(** The normaliser without the lower-casing: strip, then collapse. *)
Lemma re_sub_ws_strip s : re_sub_ws (strip s) = unwords (words s).
Proof.
  unfold re_sub_ws, strip. rewrite <-(words_lstrip s).
  assert (Hhd : match lstrip s with [] => True | c :: _ => isspace c = false end).
  { induction s as [|c r IH]; [done|]. simpl. by destruct (isspace c) eqn:Hc. }
  destruct (lstrip s) as [|c r]; [done|].
  rewrite <-(proj2 (sub_ws_runs_rstrip (c :: r))).
  rewrite rstrip_cons. simpl. rewrite Hhd. simpl. by rewrite Hhd.
Qed.

Lemma lower_join ws :
  lower (unwords ws) = unwords (map lower ws).
Proof.
  unfold unwords. induction ws as [|w [|w' ws] IH]; [done| done |].
  change (join [SP] (w :: w' :: ws)) with (w ++ SP :: join [SP] (w' :: ws)).
  change (map lower (w :: w' :: ws)) with (lower w :: map lower (w' :: ws)).
  change (join [SP] (lower w :: map lower (w' :: ws)))
    with (lower w ++ SP :: join [SP] (map lower (w' :: ws))).
  rewrite <-IH. unfold lower. by rewrite map_app.
Qed.

Lemma tokens_lower s :
  tokens (lower s) = (lower (tokens s).1, map lower (tokens s).2).
Proof.
  induction s as [|c r IH]; [done|].
  change (lower (c :: r)) with (lower_char c :: lower r).
  rewrite !tokens_cons, isspace_lower_char, !words_alt, IH. simpl.
  destruct (isspace c); [|done]. by destruct (tokens r).1.
Qed.

Lemma words_lower s : words (lower s) = map lower (words s).
Proof.
  rewrite !words_alt, tokens_lower. simpl. by destruct (tokens s).1.
Qed.

Lemma lower_idemp s : lower (lower s) = lower s.
Proof.
  unfold lower. rewrite map_map. apply map_ext. apply lower_char_idemp.
Qed.

End words.

(** ** The field normaliser *)

Section normaliser.

Implicit Types (s : pystr) (c : ascii) (ws : list pystr) (v : pyval).

(** [clean_entries] on a string: the words of the lower-cased input, joined
    by single spaces. *)
Lemma clean_entries_str s :
  clean_entries (PyStr s) = unwords (words (lower s)).
Proof. unfold clean_entries. simpl. apply re_sub_ws_strip. Qed.

Lemma clean_entries_null v : isnull v = true → clean_entries v = [].
Proof. by destruct v. Qed.

Lemma clean_entries_words v :
  clean_entries v = unwords (words (clean_entries v)).
Proof.
  destruct v; [done | done |]. rewrite clean_entries_str.
  by rewrite words_unwords by apply words_is_word.
Qed.

Lemma words_clean_entries s :
  words (clean_entries (PyStr s)) = map lower (words s).
Proof.
  rewrite clean_entries_str, words_unwords by apply words_is_word.
  apply words_lower.
Qed.

Lemma lower_clean_entries v : lower (clean_entries v) = clean_entries v.
Proof.
  destruct v; [done | done |].
  rewrite clean_entries_str, lower_join, <-words_lower, lower_idemp. done.
Qed.

Lemma clean_entries_idemp v :
  clean_entries (PyStr (clean_entries v)) = clean_entries v.
Proof.
  rewrite clean_entries_str, lower_clean_entries. symmetry. apply clean_entries_words.
Qed.

Lemma lstrip_id s :
  match s with [] => True | c :: _ => isspace c = false end → lstrip s = s.
Proof. destruct s as [|c r]; [done|]. simpl. by intros ->. Qed.

Lemma rstrip_id s :
  match last s with None => True | Some c => isspace c = false end →
  rstrip s = s.
Proof.
  intros H. unfold rstrip. rewrite lstrip_id; [apply reverse_involutive|].
  rewrite <-head_reverse in H. by destruct (reverse s).
Qed.

Lemma unwords_ends ws :
  Forall is_word ws →
  match unwords ws with [] => True | c :: _ => isspace c = false end
  ∧ match last (unwords ws) with None => True | Some c => isspace c = false end.
Proof.
  unfold unwords. induction 1 as [|w ws Hword Hws IH]; [done|].
  destruct Hword as [Hne Hw]. destruct IH as [_ IH]. split.
  - rewrite join_cons. destruct Hw; [done|]. done.
  - destruct ws as [|w' ws].
    + simpl. destruct (last w) as [c|] eqn:Hl; [|done].
      apply last_Some in Hl as [w0 ->]. by apply Forall_app in Hw as [_ [? _]%Forall_cons].
    + change (join [SP] (w :: w' :: ws)) with (w ++ SP :: join [SP] (w' :: ws)).
      rewrite last_app_cons, last_cons.
      destruct (last (join [SP] (w' :: ws))) as [c|] eqn:Hl; [done|].
      apply last_None in Hl. apply Forall_cons in Hws as [[Hne' _] _].
      rewrite join_cons in Hl. by destruct w'.
Qed.

Lemma strip_unwords ws : Forall is_word ws → strip (unwords ws) = unwords ws.
Proof.
  intros [H1 H2]%unwords_ends. unfold strip.
  rewrite (lstrip_id _ H1). by apply rstrip_id.
Qed.

(** A normalised value is a fixed point of each of the three steps. *)
Lemma clean_entries_strip v : strip (clean_entries v) = clean_entries v.
Proof.
  rewrite (clean_entries_words v) at 1 2. apply strip_unwords, words_is_word.
Qed.

Lemma clean_entries_re_sub_ws v : re_sub_ws (clean_entries v) = clean_entries v.
Proof.
  rewrite <-(clean_entries_strip v) at 1. rewrite re_sub_ws_strip.
  symmetry. apply clean_entries_words.
Qed.

End normaliser.

(** ** The symbol filter *)

Section symbol_filter.

Implicit Types (x kept : pystr) (c : ascii).

Lemma contains_char kept c : contains kept [c] = bool_decide (c ∈ kept).
Proof.
  induction kept as [|k kept IH]; [done|]. simpl. rewrite IH.
  rewrite andb_true_r. apply eq_true_iff_eq.
  rewrite orb_true_iff, !bool_decide_eq_true, elem_of_cons. done.
Qed.

Lemma join_singletons x : join [] (map (λ c, [c]) x) = x.
Proof.
  induction x as [|c [|d x] IH]; [done | done |].
  change (c :: join [] (map (λ c, [c]) (d :: x)) = c :: d :: x). by rewrite IH.
Qed.

(** The comprehension keeps exactly the characters that occur in
    [kept_chars]. *)
Lemma strip_symbols_filter x kept :
  strip_symbols x kept = filter (λ c, c ∈ kept) x.
Proof.
  unfold strip_symbols.
  assert (List.filter (contains kept) (map (λ c, [c]) x)
          = map (λ c, [c]) (filter (λ c, c ∈ kept) x)) as ->.
  { induction x as [|c x IH]; [done|]. simpl. rewrite contains_char, IH.
    case_bool_decide; [rewrite filter_cons_True | rewrite filter_cons_False]; done. }
  apply join_singletons.
Qed.

Lemma strip_symbols_Forall x kept :
  Forall (λ c, c ∈ kept) (strip_symbols x kept).
Proof.
  rewrite strip_symbols_filter. apply Forall_forall.
  by intros c [? _]%list_elem_of_filter.
Qed.

Lemma strip_symbols_id x kept :
  Forall (λ c, c ∈ kept) x → strip_symbols x kept = x.
Proof.
  rewrite strip_symbols_filter. induction 1 as [|c x Hc Hx IH]; [done|].
  rewrite filter_cons_True by done. by rewrite IH.
Qed.

End symbol_filter.

(** ** The address canonicaliser *)

Section address.

Implicit Types (u v : pystr) (c : ascii) (col : list pyval).

Lemma elem_of_sub_ws_runs b c u :
  c ∈ sub_ws_runs b u → c = SP ∨ c ∈ u.
Proof.
  revert b. induction u as [|d u IH]; intros b H; simpl in H.
  { by apply elem_of_nil in H. }
  rewrite elem_of_cons. destruct (isspace d).
  - destruct b.
    + apply IH in H as [?|?]; auto.
    + apply elem_of_cons in H as [?|H]; [auto|]. apply IH in H as [?|?]; auto.
  - apply elem_of_cons in H as [?|H]; [auto|]. apply IH in H as [?|?]; auto.
Qed.

Lemma elem_of_lstrip c u : c ∈ lstrip u → c ∈ u.
Proof.
  induction u as [|d u IH]; simpl; [done|].
  destruct (isspace d); [|done]. intros H. right. by apply IH.
Qed.

Lemma elem_of_strip c u : c ∈ strip u → c ∈ u.
Proof.
  unfold strip, rstrip. rewrite elem_of_reverse.
  intros H%elem_of_lstrip. rewrite elem_of_reverse in H. by apply elem_of_lstrip.
Qed.

(** Every character of a normalised string is a space or the lower-case
    image of an input character. *)
Lemma elem_of_clean_entries c u :
  c ∈ clean_entries (PyStr u) → c = SP ∨ c ∈ lower u.
Proof.
  unfold clean_entries, re_sub_ws. simpl.
  intros [?|H%elem_of_strip]%elem_of_sub_ws_runs; [by left | by right].
Qed.

Lemma default_kept_chars_lower c :
  c ∈ default_kept_chars → lower_char c = c.
Proof.
  unfold default_kept_chars, lit. simpl.
  rewrite !elem_of_cons, elem_of_nil. intros H.
  repeat (destruct H as [->|H]; [done|]). done.
Qed.

Lemma default_kept_chars_space : SP ∈ default_kept_chars.
Proof. unfold default_kept_chars, lit. simpl. set_solver. Qed.

(** Normalising a string over the default character set stays inside it, so
    the symbol filter leaves the accumulator of the reduce unchanged. *)
Lemma clean_entries_kept u :
  Forall (λ c, c ∈ default_kept_chars) u →
  Forall (λ c, c ∈ default_kept_chars) (clean_entries (PyStr u)).
Proof.
  rewrite !Forall_forall. intros Hu c [->|Hc]%elem_of_clean_entries.
  - apply default_kept_chars_space.
  - unfold lower in Hc. apply list_elem_of_fmap in Hc as (d & -> & Hd).
    rewrite default_kept_chars_lower by auto. auto.
Qed.

Lemma lower_app_space u v : lower (u ++ SP :: v) = lower u ++ SP :: lower v.
Proof. unfold lower. by rewrite map_app. Qed.

(** Normalisation only sees the words of the lower-cased input. *)
Lemma clean_entries_words_eq u u' :
  clean_entries (PyStr u) = clean_entries (PyStr u') →
  words (lower u) = words (lower u').
Proof.
  rewrite !clean_entries_str. intros H.
  rewrite <-(words_unwords (words (lower u))), H by apply words_is_word.
  apply words_unwords, words_is_word.
Qed.

Lemma clean_entries_app_space u u' v :
  clean_entries (PyStr u) = clean_entries (PyStr u') →
  clean_entries (PyStr (u ++ SP :: v)) = clean_entries (PyStr (u' ++ SP :: v)).
Proof.
  intros H%clean_entries_words_eq.
  rewrite !clean_entries_str, !lower_app_space, !words_app_space by done.
  by rewrite H.
Qed.

Lemma row_lambda_kept (acc x : pyval) :
  ∃ u, row_lambda acc x = PyStr u ∧ Forall (λ c, c ∈ default_kept_chars) u.
Proof.
  eexists; split; [done|]. rewrite !Forall_app. split_and!.
  - apply strip_symbols_Forall.
  - constructor; [apply default_kept_chars_space | constructor].
  - apply strip_symbols_Forall.
Qed.

(** The reduce over one row, started from an accumulator over the default
    character set that normalises like the join of [parts]. *)
Lemma foldl_row_lambda (rest : list pyval) u parts :
  parts ≠ [] →
  Forall (λ c, c ∈ default_kept_chars) u →
  clean_entries (PyStr u) = clean_entries (PyStr (join [SP] parts)) →
  clean_entries (foldl row_lambda (PyStr u) rest)
  = clean_entries
      (PyStr (join [SP]
         (parts ++ ((λ x, strip_symbols_default (clean_entries x)) <$> rest)))).
Proof.
  revert u parts. induction rest as [|x rest IH]; intros u parts Hne Hu Heq.
  { by rewrite fmap_nil, app_nil_r. }
  simpl foldl. unfold row_lambda at 2. rewrite fmap_cons.
  rewrite (cons_middle _ parts), (app_assoc parts).
  apply IH.
  - by destruct parts.
  - rewrite !Forall_app. split_and!.
    + apply strip_symbols_Forall.
    + constructor; [apply default_kept_chars_space | constructor].
    + apply strip_symbols_Forall.
  - unfold strip_symbols_default at 1.
    rewrite strip_symbols_id by by apply clean_entries_kept.
    rewrite join_app_sep by done. rewrite <-app_assoc. simpl.
    apply clean_entries_app_space. by rewrite clean_entries_idemp.
Qed.

Lemma foldl_row_lambda_reference (a b : pyval) (rest : list pyval) :
  clean_entries (foldl row_lambda a (b :: rest))
  = canonical_address_reference (a :: b :: rest).
Proof.
  simpl foldl. destruct (row_lambda_kept a b) as (u & Hu & Hkept).
  rewrite Hu. unfold canonical_address_reference.
  rewrite (foldl_row_lambda rest u
             [strip_symbols_default (clean_entries a);
              strip_symbols_default (clean_entries b)]); [done | done | done |].
  injection Hu as <-. simpl. by rewrite <-app_assoc.
Qed.

(** Cell-wise reading of the lambda and of the fold over Series. *)
Lemma combine_lambda_lookup col_1 col_2 i (a b : pyval) :
  col_1 !! i = Some a → col_2 !! i = Some b →
  combine_lambda col_1 col_2 !! i = Some (row_lambda a b).
Proof.
  intros Ha Hb. unfold combine_lambda, series_add, series_add_scalar.
  rewrite list_lookup_fmap, lookup_zip_with, !list_lookup_fmap, Ha, Hb. done.
Qed.

Lemma foldl_combine_lambda_lookup (cols : list (list pyval)) comps col i a :
  col !! i = Some a →
  Forall2 (λ col x, col !! i = Some x) cols comps →
  foldl combine_lambda col cols !! i = Some (foldl row_lambda a comps).
Proof.
  intros Ha H. revert col a Ha.
  induction H as [|col' x cols comps Hx _ IH]; intros col a Ha; [done|].
  simpl. apply IH. by apply combine_lambda_lookup.
Qed.

End address.

Section address_columns.

(** The canonicaliser on Series, read row by row. *)
Lemma combine_address_columns_lookup
    (cols : list (list pyval)) (comps : list pyval) (i : nat) :
  2 ≤ length cols →
  Forall2 (λ col x, col !! i = Some x) cols comps →
  ∃ combined,
    combine_address_columns cols = Some combined
    ∧ combined !! i = Some (canonical_address_reference comps).
Proof.
  intros Hlen Hrows.
  destruct Hrows as [|col_1 a cols comps Ha Hrows]; [simpl in Hlen; lia|].
  destruct Hrows as [|col_2 b cols comps Hb Hrows]; [simpl in Hlen; lia|].
  eexists. split; [reflexivity|].
  assert (Forall2 (λ (col : list pyval) x, col !! i = Some x)
            (col_2 :: cols) (b :: comps)) as Hall by (by constructor).
  rewrite list_lookup_fmap.
  rewrite (foldl_combine_lambda_lookup _ _ col_1 i a Ha Hall).
  simpl. f_equal. apply (foldl_row_lambda_reference a b comps).
Qed.

(** The postal-code component, cell by cell. *)
Lemma postal_code_component_cells (series : list pyval) :
  postal_code_component series
  = (λ v, PyStr (take 5 (match v with PyStr s => s | PyNone | PyNaN => [] end)))
      <$> series.
Proof.
  unfold postal_code_component, str_slice_to, fillna.
  rewrite <-!list_fmap_compose. apply list_fmap_ext. by intros _ [| |s] _.
Qed.

(** Whitespace apart, normalisation removes no character. *)
Lemma filter_sub_ws_runs b (s : pystr) :
  List.filter (λ c, negb (isspace c)) (sub_ws_runs b s)
  = List.filter (λ c, negb (isspace c)) s.
Proof.
  revert b. induction s as [|c s IH]; intros b; [done|]. simpl.
  destruct (isspace c) eqn:Hc; simpl.
  - destruct b; simpl; apply IH.
  - rewrite Hc. simpl. by rewrite IH.
Qed.

Lemma filter_lstrip (s : pystr) :
  List.filter (λ c, negb (isspace c)) (lstrip s)
  = List.filter (λ c, negb (isspace c)) s.
Proof.
  induction s as [|c s IH]; [done|]. simpl.
  by destruct (isspace c) eqn:Hc; simpl; rewrite ?Hc.
Qed.

Lemma filter_reverse (f : ascii → bool) (s : pystr) :
  List.filter f (reverse s) = reverse (List.filter f s).
Proof.
  induction s as [|c s IH]; [done|].
  rewrite reverse_cons, List.filter_app, IH. simpl.
  destruct (f c); [by rewrite reverse_cons | by rewrite app_nil_r].
Qed.

Lemma filter_clean_entries (s : pystr) :
  List.filter (λ c, negb (isspace c)) (clean_entries (PyStr s))
  = List.filter (λ c, negb (isspace c)) (lower s).
Proof.
  unfold clean_entries, re_sub_ws, strip, rstrip. simpl.
  rewrite filter_sub_ws_runs, filter_reverse, filter_lstrip, filter_reverse.
  by rewrite reverse_involutive, filter_lstrip.
Qed.

(** A character of the lower-cased input that is not whitespace is still
    there after normalisation. *)
Lemma clean_entries_keeps (s : pystr) (c : ascii) :
  c ∈ lower s → isspace c = false → c ∈ clean_entries (PyStr s).
Proof.
  intros Hc Hsp. apply list_elem_of_In.
  apply (proj1 (filter_In (λ c, negb (isspace c)) c _)).
  rewrite filter_clean_entries. apply filter_In.
  split; [by apply list_elem_of_In | by rewrite Hsp].
Qed.

Example canonical_address_reference_ex :
  canonical_address_reference
    [PyStr (lit "123  Main St."); PyNaN; PyStr (lit " Philadelphia ")]
  = lit "123 main st philadelphia".
Proof. reflexivity. Qed.

Example combine_address_columns_ex :
  combine_address_columns
    [[PyStr (lit "123  Main St."); PyStr (lit "9 Elm")];
     [PyNaN; PyStr (lit "Apt #4")];
     [PyStr (lit " Philadelphia "); PyNone]]
  = Some [lit "123 main st philadelphia"; lit "9 elm apt 4"].
Proof. reflexivity. Qed.

Example combine_address_columns_empty : combine_address_columns [] = None.
Proof. reflexivity. Qed.

End address_columns.

(** ** The identity linker *)

Module LinkerFacts.
Import Linker.

Lemma find_row_lookup rule rows i m :
  find_row rule rows = Some (i, m) → rows !! i = Some m.
Proof.
  revert i. induction rows as [|m' rows IH]; intros i; simpl; [done|].
  destruct (rule m'); [by intros [= <- <-]|].
  destruct (find_row rule rows) as [[j m'']|]; simpl; [|done].
  intros [= <- <-]. by apply IH.
Qed.

Lemma find_match_lookup k rows i m :
  find_match k rows = Some (i, m) → rows !! i = Some m.
Proof.
  unfold find_match. intros H.
  repeat match type of H with
         | match find_row ?r ?l with _ => _ end = _ =>
             let E := fresh "E" in destruct (find_row r l) as [[??]|] eqn:E
         end;
    simplify_eq; eauto using find_row_lookup.
Qed.

Lemma row_links_merge m k source_name source_row_id :
  row_links (merge m k source_name source_row_id)
  = row_links m ++ [((source_name, source_row_id), identity_id m)].
Proof. unfold row_links. simpl. by rewrite fmap_app. Qed.

(** One call records exactly one Link, for the record it was called on. *)
Lemma apply_op_links table op :
  ∃ id,
    all_links (identities (apply_op table op))
    ≡ₚ (op_record op, id) :: all_links (identities table).
Proof.
  unfold apply_op, link.
  destruct (find_match (op_key op) (identities table)) as [[i m]|] eqn:Hfind;
    simpl.
  - exists (identity_id m). apply find_match_lookup in Hfind.
    rewrite insert_take_drop by eauto using lookup_lt_Some.
    rewrite <-(take_drop_middle _ _ _ Hfind) at 3.
    unfold all_links. rewrite !bind_app, !bind_cons, row_links_merge.
    rewrite <-!app_assoc. simpl.
    by rewrite <-!Permutation_middle.
  - exists (next_id table). unfold all_links.
    rewrite bind_app. simpl. by rewrite <-Permutation_cons_append.
Qed.

(** After a run, the linked records are those of the table it started
    from and one per call. *)
Lemma run_records ops table :
  (all_links (identities (run ops table))).*1
  ≡ₚ (op_record <$> ops) ++ (all_links (identities table)).*1.
Proof.
  revert table. induction ops as [|op ops IH]; intros table; [done|].
  unfold run in *. simpl. rewrite IH.
  destruct (apply_op_links table op) as [id ->]. simpl.
  by rewrite Permutation_middle.
Qed.

Lemma linked_all_links table record id :
  linked table record id ↔ (record, id) ∈ all_links (identities table).
Proof.
  unfold linked, all_links, row_links. rewrite list_elem_of_bind. split.
  - intros (m & Hm & <- & Hr). exists m. split; [|done].
    apply list_elem_of_fmap. by exists record.
  - intros (m & Hr & Hm). exists m. split; [done|].
    apply list_elem_of_fmap in Hr as (r & [= -> ->] & Hr). done.
Qed.

Lemma NoDup_fst_functional {A B} (l : list (A * B)) x y1 y2 :
  NoDup l.*1 → (x, y1) ∈ l → (x, y2) ∈ l → y1 = y2.
Proof.
  induction l as [|[a b] l IH]; csimpl; intros Hnd H1 H2.
  { by apply elem_of_nil in H1. }
  apply NoDup_cons in Hnd as [Hnotin Hnd].
  apply elem_of_cons in H1 as [H1|H1];
    apply elem_of_cons in H2 as [H2|H2]; simplify_eq; [done | | | by apply IH].
  - destruct Hnotin. apply list_elem_of_fmap. by eexists (_, _).
  - destruct Hnotin. apply list_elem_of_fmap. by eexists (_, _).
Qed.

Lemma link_unique_NoDup table :
  NoDup (all_links (identities table)).*1 → link_unique table.
Proof.
  intros Hnd record id1 id2 H1%linked_all_links H2%linked_all_links.
  by eapply NoDup_fst_functional.
Qed.

(** The scenarios of section 8 of the specification. *)

(** Scenario 1: the same e-mail after normalisation, one identity. *)
Example scenario_1 :
  let a := {| name := []; email := clean_entries (PyStr (lit "Jane.Doe@X.COM "));
              cell := []; phone := []; address_variants := [[]] |} in
  let b := {| name := []; email := clean_entries (PyStr (lit "jane.doe@x.com"));
              cell := []; phone := []; address_variants := [[]] |} in
  let (id_a, table) := link a "source1" 0 empty_table in
  let (id_b, table) := link b "source2" 0 table in
  id_a = id_b ∧ length (identities table) = 1.
Proof. by vm_compute. Qed.

(** Scenario 2: the same name and one shared address variant, one
    identity. *)
Example scenario_2 :
  let a := {| name := lit "doe jane"; email := []; cell := []; phone := [];
              address_variants := [lit "123 main street"] |} in
  let b := {| name := lit "doe jane"; email := []; cell := []; phone := [];
              address_variants := [lit "123 main st"; lit "123 main street"] |} in
  let (id_a, table) := link a "source1" 0 empty_table in
  let (id_b, table) := link b "source2" 0 table in
  id_a = id_b
  ∧ (address_variants ∘ keys <$> identities table)
    = [[lit "123 main street"; lit "123 main st"]].
Proof. by vm_compute. Qed.

(** Scenario 3: the same name and nothing else shared, two identities. *)
Example scenario_3 :
  let a := {| name := lit "doe jane"; email := []; cell := []; phone := [];
              address_variants := [lit "123 main street"] |} in
  let b := {| name := lit "doe jane"; email := []; cell := []; phone := [];
              address_variants := [lit "9 elm avenue"] |} in
  let (id_a, table) := link a "source1" 0 empty_table in
  let (id_b, table) := link b "source2" 0 table in
  id_a ≠ id_b ∧ length (identities table) = 2.
Proof. by vm_compute. Qed.

(** Scenario 4: the empty address never matches by rule 4. *)
Example scenario_4 :
  let a := {| name := lit "doe jane"; email := []; cell := []; phone := [];
              address_variants := [[]] |} in
  let (id_a, table) := link a "source1" 0 empty_table in
  let (id_b, table) := link a "source2" 0 table in
  id_a ≠ id_b ∧ length (identities table) = 2.
Proof. by vm_compute. Qed.

End LinkerFacts.

(** ** The cells on a small table *)

Example petpoint_cell_ex :
  let df' := source_cell (λ s _, Some [s]) json_dumps_plain Petpoint
               petpoint_example in
  df' ≫= (.!! "match_name") = Some [PyStr (lit "oneil jane")]
  ∧ df' ≫= (.!! "match_email") = Some [PyStr (lit "jane.doe@x.com")]
  ∧ df' ≫= (.!! "match_cell") = Some [PyStr (lit "215 555-0100")]
  ∧ df' ≫= (.!! "match_phone") = Some [PyStr []]
  ∧ df' ≫= (.!! "match_address_list")
    = Some [PyStr (json_dumps_plain [lit "main st 4 philadelphia pa 19104"])].
Proof. split_and!; by vm_compute. Qed.

(** ** Case and whitespace of a normalised value, by code point *)

Section code_points.

Implicit Types (s : pystr) (c : ascii).

(** A character that [str.lower] leaves alone is no capital: it is outside
    A-Z and outside U+00C0..U+00DE, the sign U+00D7 apart. *)
Lemma lower_char_fixed_no_capital c :
  lower_char c = c →
  ¬ (65 ≤ N_of_ascii c ≤ 90)%N
  ∧ ¬ (192 ≤ N_of_ascii c ≤ 222 ∧ N_of_ascii c ≠ 215)%N.
Proof.
  destruct c as [[] [] [] [] [] [] [] []]; intros H;
    first [ by (vm_compute in H; discriminate H)
          | clear H; split; cbn; lia ].
Qed.

(** The only whitespace character that is a space is U+0020. *)
Lemma isspace_not_space c :
  (isspace c = true → c = SP) →
  ¬ (9 ≤ N_of_ascii c ≤ 13)%N ∧ ¬ (28 ≤ N_of_ascii c ≤ 31)%N
  ∧ N_of_ascii c ≠ 133%N ∧ N_of_ascii c ≠ 160%N.
Proof.
  destruct c as [[] [] [] [] [] [] [] []]; intros H;
    first [ by (specialize (H eq_refl); discriminate H)
          | clear H; split_and!; cbn; lia ].
Qed.

Lemma map_fixed_Forall (f : ascii → ascii) s :
  map f s = s → Forall (λ c, f c = c) s.
Proof.
  induction s as [|c s IH]; [constructor|]. simpl.
  intros [= Hc Hs]. constructor; auto.
Qed.

Lemma sub_ws_runs_only_space b s :
  Forall (λ c, isspace c = true → c = SP) (sub_ws_runs b s).
Proof.
  revert b. induction s as [|c s IH]; intros b; simpl; [constructor|].
  destruct (isspace c) eqn:Hc; [destruct b|]; try constructor; auto.
  congruence.
Qed.

Lemma filter_lower s :
  List.filter (λ c, negb (isspace c)) (lower s)
  = map lower_char (List.filter (λ c, negb (isspace c)) s).
Proof.
  induction s as [|c s IH]; [done|]. simpl.
  rewrite isspace_lower_char. destruct (isspace c); simpl; by rewrite IH.
Qed.

End code_points.

(** ** The linking pass *)

Module PassFacts.
Import Linker LinkerFacts.

Lemma pass_ops_records source_name records :
  op_record <$> pass_ops source_name records
  = imap (λ i _, (source_name, i)) records.
Proof.
  unfold pass_ops. rewrite fmap_imap. by apply imap_ext.
Qed.

Lemma NoDup_pass_records source_name records :
  NoDup (op_record <$> pass_ops source_name records).
Proof.
  rewrite pass_ops_records. apply NoDup_alt. intros i j r.
  rewrite !list_lookup_imap.
  destruct (records !! i), (records !! j); simpl; try done.
  by intros [= <-] [= ->].
Qed.

Lemma pipeline_records_source sources r :
  r ∈ op_record <$> pipeline_ops sources → r.1 ∈ sources.*1.
Proof.
  unfold pipeline_ops. rewrite list_elem_of_fmap.
  intros (op & -> & (src & Hop & Hsrc)%list_elem_of_bind).
  assert (op_source op = src.1) as Hname.
  { unfold pass_ops in Hop. apply list_elem_of_lookup in Hop as [i Hi].
    rewrite list_lookup_imap in Hi.
    destruct (src.2 !! i); simpl in Hi; [|done]. by injection Hi as <-. }
  simpl. rewrite Hname. apply list_elem_of_fmap. by exists src.
Qed.

(** In the pass over sources with distinct names no record is linked
    twice. *)
Lemma NoDup_pipeline_records sources :
  NoDup sources.*1 → NoDup (op_record <$> pipeline_ops sources).
Proof.
  induction sources as [|[source_name records] sources IH]; csimpl;
    [constructor|].
  intros [Hnotin Hnd]%NoDup_cons.
  change (NoDup (op_record <$> pass_ops source_name records
                                ++ pipeline_ops sources)).
  rewrite fmap_app. apply NoDup_app. split_and!.
  - apply NoDup_pass_records.
  - intros r Hr Hr'. apply pipeline_records_source in Hr'.
    rewrite pass_ops_records in Hr. apply list_elem_of_lookup in Hr as [i Hi].
    rewrite list_lookup_imap in Hi.
    destruct (records !! i); simpl in Hi; [|done]. injection Hi as <-.
    done.
  - by apply IH.
Qed.

(** The pass keeps the Links unique. *)
Lemma link_unique_pipeline sources :
  NoDup sources.*1 → link_unique (run (pipeline_ops sources) empty_table).
Proof.
  intros Hnd%NoDup_pipeline_records.
  apply link_unique_NoDup.
  pose proof (run_records (pipeline_ops sources) empty_table) as Hrec.
  simpl in Hrec. rewrite app_nil_r in Hrec. by rewrite Hrec.
Qed.

End PassFacts.

(** * The specification's claims *)

(** ** Field normaliser *)

(** C2. The field normaliser is idempotent: for every input string [x],
    normalising the normalised string gives the normalised string again. *)
Theorem clean_entries_idempotent (x : pystr) :
  clean_entries (PyStr (clean_entries (PyStr x))) = clean_entries (PyStr x).
Proof.
  rewrite (clean_entries_str (clean_entries _)).
  rewrite lower_clean_entries, words_clean_entries, <-words_lower.
  symmetry. apply clean_entries_str.
Qed.

(** C5. [clean_entries] returns the empty string for a missing value, and
    otherwise the words of the lower-cased string form of the input joined
    by single spaces; the result has no whitespace at either end, every run
    of whitespace in it is one space, it is in lower case, and it is a
    string, never a null value.

    The case change and the whitespace are also stated by code point: the
    characters of the result other than whitespace are those of the input,
    in order, with every capital (A-Z, and U+00C0..U+00DE other than
    U+00D7) replaced by the code point 32 above it; no capital is left in
    the result; the only whitespace left is the space U+0020; and a value
    with a tab, a line feed, a carriage return and capitals is mapped as
    Python maps it. *)
Theorem clean_entries_contract (entry : pyval) :
  clean_entries entry
    = (if isnull entry then [] else unwords (words (lower (str entry))))
  ∧ strip (clean_entries entry) = clean_entries entry
  ∧ re_sub_ws (clean_entries entry) = clean_entries entry
  ∧ lower (clean_entries entry) = clean_entries entry
  ∧ isnull (PyStr (clean_entries entry)) = false
  ∧ List.filter (λ c, negb (isspace c)) (clean_entries entry)
    = map (λ c, if ((65 <=? N_of_ascii c) && (N_of_ascii c <=? 90)
                    || (192 <=? N_of_ascii c) && (N_of_ascii c <=? 222)
                       && negb (N_of_ascii c =? 215))%N
                then ascii_of_N (N_of_ascii c + 32) else c)
        (List.filter (λ c, negb (isspace c))
           (if isnull entry then [] else str entry))
  ∧ Forall (λ c, ¬ (65 ≤ N_of_ascii c ≤ 90)%N
                 ∧ ¬ (192 ≤ N_of_ascii c ≤ 222 ∧ N_of_ascii c ≠ 215)%N)
      (clean_entries entry)
  ∧ Forall (λ c, ¬ (9 ≤ N_of_ascii c ≤ 13)%N ∧ ¬ (28 ≤ N_of_ascii c ≤ 31)%N
                 ∧ N_of_ascii c ≠ 133%N ∧ N_of_ascii c ≠ 160%N)
      (clean_entries entry)
  ∧ clean_entries
      (PyStr (["009"%char] ++ lit "Jane" ++ ["010"%char; SP] ++ lit "DOE"
              ++ ["013"%char]))
    = lit "jane doe".
Proof.
  split_and!.
  - destruct entry; [done | done | apply clean_entries_str].
  - apply clean_entries_strip.
  - apply clean_entries_re_sub_ws.
  - apply lower_clean_entries.
  - done.
  - destruct entry as [| |s]; [done | done |]. simpl.
    rewrite filter_clean_entries. apply filter_lower.
  - eapply Forall_impl;
      [apply map_fixed_Forall, lower_clean_entries|].
    apply lower_char_fixed_no_capital.
  - eapply Forall_impl; [apply sub_ws_runs_only_space|].
    apply isspace_not_space.
  - reflexivity.
Qed.

(** ** Symbol filter *)

(** C3. [strip_symbols x C] keeps exactly the characters of [x] that occur
    in [C]: every character of the result is in [C], the result is a
    subsequence of [x] (relative order preserved), and the empty string is
    mapped to the empty string. *)
Theorem strip_symbols_charset_closure (x C : pystr) :
  strip_symbols x C = filter (λ c, c ∈ C) x
  ∧ Forall (λ c, c ∈ C) (strip_symbols x C)
  ∧ strip_symbols x C `sublist_of` x
  ∧ strip_symbols [] C = [].
Proof.
  split_and!.
  - apply strip_symbols_filter.
  - apply strip_symbols_Forall.
  - rewrite strip_symbols_filter. apply sublist_filter.
  - done.
Qed.

(** C10. Symbol filtering is idempotent: a second pass with the same
    character set changes nothing. *)
Theorem strip_symbols_idempotent (x C : pystr) :
  strip_symbols (strip_symbols x C) C = strip_symbols x C.
Proof. apply strip_symbols_id, strip_symbols_Forall. Qed.

(** ** Address canonicaliser *)

(** C1. For two or more address columns, the reduce-based
    [combine_address_columns] gives, in every row, the string of the
    reference definition: each component normalised and symbol-filtered on
    its own, the results joined by single spaces, the joined string
    normalised again.  That string has no space at either end and no
    doubled space. *)
Theorem combine_address_columns_reference
    (address_columns : list (list pyval)) (components : list pyval) (i : nat) :
  2 ≤ length address_columns →
  Forall2 (λ col x, col !! i = Some x) address_columns components →
  ∃ combined,
    combine_address_columns address_columns = Some combined
    ∧ combined !! i = Some (canonical_address_reference components)
    ∧ strip (canonical_address_reference components)
      = canonical_address_reference components
    ∧ re_sub_ws (canonical_address_reference components)
      = canonical_address_reference components.
Proof.
  intros Hlen Hrows.
  destruct (combine_address_columns_lookup _ _ i Hlen Hrows)
    as (combined & Hrun & Hrow).
  exists combined. split_and!; [done | done | |].
  - apply clean_entries_strip.
  - apply clean_entries_re_sub_ws.
Qed.

(** The claim on a table of two rows and three columns, one cell missing. *)
Lemma combine_address_columns_reference_witness :
  ∃ combined,
    combine_address_columns
      [[PyStr (lit "123  Main St."); PyStr (lit "9 Elm")];
       [PyNaN; PyStr (lit "Apt #4")];
       [PyStr (lit " Philadelphia "); PyNone]] = Some combined
    ∧ combined !! 0
      = Some (canonical_address_reference
                [PyStr (lit "123  Main St."); PyNaN;
                 PyStr (lit " Philadelphia ")])
    ∧ strip (canonical_address_reference
               [PyStr (lit "123  Main St."); PyNaN;
                PyStr (lit " Philadelphia ")])
      = canonical_address_reference
          [PyStr (lit "123  Main St."); PyNaN; PyStr (lit " Philadelphia ")]
    ∧ re_sub_ws (canonical_address_reference
                   [PyStr (lit "123  Main St."); PyNaN;
                    PyStr (lit " Philadelphia ")])
      = canonical_address_reference
          [PyStr (lit "123  Main St."); PyNaN; PyStr (lit " Philadelphia ")].
Proof.
  apply (combine_address_columns_reference
           [[PyStr (lit "123  Main St."); PyStr (lit "9 Elm")];
            [PyNaN; PyStr (lit "Apt #4")];
            [PyStr (lit " Philadelphia "); PyNone]]
           [PyStr (lit "123  Main St."); PyNaN; PyStr (lit " Philadelphia ")]
           0).
  - simpl. lia.
  - repeat constructor.
Defined.

(** C9. With exactly one column the reduce never calls its lambda: the
    column is only normalised, and [strip_symbols] is not applied.  Every
    character of a lower-cased cell other than whitespace survives, in the
    default set or not; the same cell next to a second column loses the
    characters outside the default set. *)
Theorem combine_address_columns_single (col : list pyval) :
  combine_address_columns [col] = Some (clean_entries <$> col)
  ∧ (∀ i s c,
       col !! i = Some (PyStr s) → c ∈ lower s → isspace c = false →
       ∃ r, (clean_entries <$> col) !! i = Some r ∧ c ∈ r)
  ∧ combine_address_columns [[PyStr (lit "Apt #5")]] = Some [lit "apt #5"]
  ∧ combine_address_columns [[PyStr (lit "Apt #5")]; [PyNaN]]
    = Some [lit "apt 5"].
Proof.
  split_and!; [reflexivity | | reflexivity | reflexivity].
  intros i s c Hi Hc Hsp. exists (clean_entries (PyStr s)).
  rewrite list_lookup_fmap, Hi. split; [done|].
  by apply clean_entries_keeps.
Qed.

(** ** Match keys of the three cells *)

Local Ltac invert_columns :=
  repeat match goal with
  | H : Forall2 _ (_ :: _) _ |- _ =>
      apply Forall2_cons_inv_l in H as (? & ? & ? & H & ->)
  | H : Forall2 _ [] _ |- _ => apply Forall2_nil_inv_l in H as ->
  end.

(** C4. In each of the three cells the name, cell and phone keys are the
    raw cells normalised and then symbol-filtered, while the email key is
    the raw cell normalised only: [match_email] is [clean_entries] of the
    raw email, and every character of the lower-cased email other than
    whitespace is still in it. *)
Theorem match_email_normalised_only (src : source) (df : DataFrame)
    (names : list (list pyval)) (email cell phone : list pyval) :
  Forall2 (λ k col, df !! k = Some col) (name_columns src) names →
  df !! email_column src = Some email →
  df !! cell_column src = Some cell →
  df !! phone_column src = Some phone →
  ∃ df' match_name,
    match_keys src df = Some df'
    ∧ df' !! "match_email" = Some (PyStr <$> (clean_entries <$> email))
    ∧ df' !! "match_cell" = Some (PyStr <$> apply_clean_strip cell)
    ∧ df' !! "match_phone" = Some (PyStr <$> apply_clean_strip phone)
    ∧ df' !! "match_name" = Some match_name
    ∧ (∀ i cells,
         Forall2 (λ col x, col !! i = Some x) names cells →
         match_name !! i = Some (PyStr (match_name_of cells)))
    ∧ (∀ s,
         List.filter (λ c, negb (isspace c)) (clean_entries (PyStr s))
         = List.filter (λ c, negb (isspace c)) (lower s)).
Proof.
  intros Hnames Hemail Hcell Hphone.
  destruct src; simpl in *; invert_columns;
    unfold petpoint_match_keys, volgistics_match_keys, sf_contacts_match_keys;
    simplify_map_eq; do 2 eexists; (split; [reflexivity|]);
    simplify_map_eq; split_and!; try done; try apply filter_clean_entries.
  - intros i cells Hcells. invert_columns.
    unfold apply_clean_strip. rewrite !list_lookup_fmap.
    match goal with H : _ !! i = Some _ |- _ => by rewrite H end.
  - intros i cells Hcells. invert_columns.
    unfold apply_clean_strip. rewrite !list_lookup_fmap.
    match goal with H : _ !! i = Some _ |- _ => by rewrite H end.
  - intros i cells Hcells. invert_columns.
    unfold apply_clean_strip, series_add, series_add_scalar.
    rewrite list_lookup_fmap, lookup_zip_with, !list_lookup_fmap.
    repeat match goal with H : _ !! i = Some _ |- _ => rewrite H; clear H end.
    done.
Qed.

(** The claim on a petpoint table of one row. *)
Lemma match_email_normalised_only_witness :
  ∃ df' match_name,
    match_keys Petpoint
      (<["outcome_person_name" := [PyStr (lit "O'Neil,  Jane")]]>
       (<["out_email" := [PyStr (lit " Jane.Doe@X.COM ")]]>
        (<["out_cell_phone" := [PyStr (lit "(215) 555-0100")]]>
         (<["out_home_phone" := [PyNaN]]> ∅)))) = Some df'
    ∧ df' !! "match_email"
      = Some (PyStr <$> (clean_entries <$> [PyStr (lit " Jane.Doe@X.COM ")]))
    ∧ df' !! "match_cell"
      = Some (PyStr <$> apply_clean_strip [PyStr (lit "(215) 555-0100")])
    ∧ df' !! "match_phone" = Some (PyStr <$> apply_clean_strip [PyNaN])
    ∧ df' !! "match_name" = Some match_name
    ∧ (∀ i cells,
         Forall2 (λ col x, col !! i = Some x)
                 [[PyStr (lit "O'Neil,  Jane")]] cells →
         match_name !! i = Some (PyStr (match_name_of cells)))
    ∧ (∀ s,
         List.filter (λ c, negb (isspace c)) (clean_entries (PyStr s))
         = List.filter (λ c, negb (isspace c)) (lower s)).
Proof.
  apply (match_email_normalised_only Petpoint
           (<["outcome_person_name" := [PyStr (lit "O'Neil,  Jane")]]>
            (<["out_email" := [PyStr (lit " Jane.Doe@X.COM ")]]>
             (<["out_cell_phone" := [PyStr (lit "(215) 555-0100")]]>
              (<["out_home_phone" := [PyNaN]]> ∅))))
           [[PyStr (lit "O'Neil,  Jane")]]).
  - repeat constructor.
  - reflexivity.
  - reflexivity.
  - reflexivity.
Defined.

Example match_email_keeps_symbols :
  clean_entries (PyStr (lit " Jane.Doe@X.COM ")) = lit "jane.doe@x.com".
Proof. reflexivity. Qed.

(** C7. In each of the three cells the postal-code column enters the
    address components as its first five characters, a missing value
    counting as the empty string, and it is this truncated component that
    is combined with the other address columns. *)
Theorem postal_code_truncated (src : source) (df : DataFrame)
    (streets : list (list pyval)) (postal : list pyval) :
  Forall2 (λ k col, df !! k = Some col) (street_columns src) streets →
  df !! postal_code_column src = Some postal →
  addr_components src df
    = Some (streets ++
            [(λ v, PyStr (take 5 (match v with
                                  | PyStr s => s
                                  | PyNone | PyNaN => []
                                  end))) <$> postal])
  ∧ (∀ i cells z,
       Forall2 (λ col x, col !! i = Some x) streets cells →
       postal !! i = Some z →
       ∃ df' combined,
         (addr_components src df
            ≫= λ components, set_match_address_list components df) = Some df'
         ∧ df' !! "match_address_list" = Some (PyStr <$> combined)
         ∧ combined !! i
           = Some (canonical_address_reference
                     (cells ++ [PyStr (take 5 (match z with
                                               | PyStr s => s
                                               | PyNone | PyNaN => []
                                               end))]))).
Proof.
  intros Hstreets Hpostal.
  assert (addr_components src df
          = Some (streets ++ [postal_code_component postal])) as Hcomps.
  { destruct src; simpl in *; invert_columns;
      unfold petpoint_addr_components, volgistics_addr_components,
        sf_contacts_addr_components;
      by simplify_map_eq. }
  rewrite Hcomps, postal_code_component_cells. split; [done|].
  intros i cells z Hcells Hz. simpl. unfold set_match_address_list.
  destruct (combine_address_columns_lookup
              (streets ++ [postal_code_component postal])
              (cells ++ [PyStr (take 5 (match z with
                                        | PyStr s => s
                                        | PyNone | PyNaN => []
                                        end))]) i)
    as (combined & Hrun & Hrow).
  - rewrite length_app. simpl.
    apply Forall2_length in Hstreets. rewrite <-Hstreets.
    destruct src; simpl; lia.
  - apply Forall2_app; [done|]. constructor; [|constructor].
    rewrite postal_code_component_cells, list_lookup_fmap, Hz. done.
  - rewrite postal_code_component_cells in Hrun. rewrite Hrun. simpl.
    exists (<["match_address_list" := PyStr <$> combined]> df), combined.
    by simplify_map_eq.
Qed.

(** The claim on a salesforce-contacts table of two rows, one postal code
    with an add-on and one missing. *)
Lemma postal_code_truncated_witness :
  let df : DataFrame :=
    <["mailing_street" := [PyStr (lit "12 Oak St"); PyStr (lit "9 Elm")]]>
    (<["mailing_city" := [PyStr (lit "Philadelphia"); PyNaN]]>
     (<["mailing_state_province" := [PyStr (lit "PA"); PyStr (lit "PA")]]>
      (<["mailing_zip_postal_code" := [PyStr (lit "19104-2345"); PyNaN]]> ∅)))
  in
  addr_components SfContacts df
  = Some ([[PyStr (lit "12 Oak St"); PyStr (lit "9 Elm")];
           [PyStr (lit "Philadelphia"); PyNaN];
           [PyStr (lit "PA"); PyStr (lit "PA")]] ++
          [(λ v, PyStr (take 5 (match v with
                                | PyStr s => s
                                | PyNone | PyNaN => []
                                end)))
             <$> [PyStr (lit "19104-2345"); PyNaN]]).
Proof.
  intros df.
  apply (postal_code_truncated SfContacts df
           [[PyStr (lit "12 Oak St"); PyStr (lit "9 Elm")];
            [PyStr (lit "Philadelphia"); PyNaN];
            [PyStr (lit "PA"); PyStr (lit "PA")]]
           [PyStr (lit "19104-2345"); PyNaN]).
  - repeat constructor.
  - reflexivity.
Defined.

Example postal_code_component_ex :
  postal_code_component [PyStr (lit "19104-2345"); PyNaN; PyStr (lit "191")]
  = [PyStr (lit "19104"); PyStr []; PyStr (lit "191")].
Proof. reflexivity. Qed.

(** ** Address expansion *)

(** C6 does not hold as stated: the notebook applies [expand_address] to
    the canonical string and stores what comes back.  With a boundary that
    returns no candidates the stored sequence is empty, not the canonical
    string alone; with a boundary that raises, the statement raises. *)
Lemma expansion_fallback_counterexample :
  let no_candidates : list ascii → list (list ascii) → option (list (list ascii)) :=
    λ _ _, Some [] in
  let raising : list ascii → list (list ascii) → option (list (list ascii)) :=
    λ _ _, None in
  apply_expand_address no_candidates [PyStr (lit "123 main st")] = Some [[]]
  ∧ apply_expand_address no_candidates [PyStr (lit "123 main st")]
    ≠ Some [[lit "123 main st"]]
  ∧ apply_expand_address raising [PyStr (lit "123 main st")] = None
  ∧ source_cell no_candidates json_dumps_plain Petpoint petpoint_example
      ≫= (.!! "match_address_list")
    = Some [PyStr (lit "[]")]
  ∧ source_cell raising json_dumps_plain Petpoint petpoint_example = None.
Proof. split_and!; [done | done | done | | ]; by vm_compute. Qed.

(** C6, amended.  The expansion step has no fallback: when the boundary
    returns a candidate sequence for every row, each row stores exactly the
    sequence returned for its canonical string (serialised by
    [json.dumps]), empty if the boundary returned none; when the boundary
    raises for some row, the step raises and stores nothing. *)
Theorem expansion_stores_boundary_result
    (expand_address : list ascii → list (list ascii) → option (list (list ascii)))
    (json_dumps : list (list ascii) → list ascii)
    (df : DataFrame) (canonical : list (list ascii)) :
  df !! "match_address_list" = Some (PyStr <$> canonical) →
  (∀ candidates,
     Forall2 (λ s c, expand_address s [lit "en"] = Some c) canonical candidates →
     apply_expand_address expand_address (PyStr <$> canonical) = Some candidates
     ∧ expand_match_address_list expand_address json_dumps df
       = Some (<["match_address_list" := PyStr <$> (json_dumps <$> candidates)]> df))
  ∧ (Exists (λ s, expand_address s [lit "en"] = None) canonical →
     apply_expand_address expand_address (PyStr <$> canonical) = None
     ∧ expand_match_address_list expand_address json_dumps df = None).
Proof.
  intros Hcol. unfold expand_match_address_list. rewrite Hcol. simpl. split.
  - intros candidates Hall.
    assert (apply_expand_address expand_address (PyStr <$> canonical)
            = Some candidates) as ->; [|done].
    apply mapM_Some_2, Forall2_fmap_l. done.
  - intros Hex.
    assert (apply_expand_address expand_address (PyStr <$> canonical) = None)
      as ->; [|done].
    apply mapM_None_2, Exists_fmap. done.
Qed.

(** The amended claim with a boundary that returns two candidates for one
    row and none for the other. *)
Lemma expansion_stores_boundary_result_witness :
  let expand : list ascii → list (list ascii) → option (list (list ascii)) :=
    λ s _, Some (if bool_decide (s = []) then [] else [s; s ++ lit "reet"]) in
  let df : DataFrame :=
    {["match_address_list" := [PyStr (lit "123 main st"); PyStr []]]} in
  expand_match_address_list expand json_dumps_plain df
  = Some (<["match_address_list" :=
              PyStr <$> (json_dumps_plain <$>
                [[lit "123 main st"; lit "123 main street"]; []])]> df).
Proof.
  intros expand df.
  destruct (expansion_stores_boundary_result expand json_dumps_plain df
              [lit "123 main st"; []] eq_refl) as [Hstored _].
  apply (Hstored [[lit "123 main st"; lit "123 main street"]; []]).
  repeat constructor.
Defined.

(** ** Identity linker *)

Module LinkerClaims.
Import Linker LinkerFacts.



End LinkerClaims.

(** * Further properties of the notebook's code *)

(** ** Field normaliser *)

Section normaliser_more.

Implicit Types (s u v : pystr) (c : ascii) (ws : list pystr).

Lemma unwords_nil_inv ws : Forall is_word ws → unwords ws = [] → ws = [].
Proof.
  intros Hws H. destruct ws as [|w ws]; [done|].
  unfold unwords in H. rewrite join_cons in H.
  apply Forall_cons in Hws as [[Hne _] _]. by destruct w.
Qed.

Lemma words_all_space s : words s = [] ↔ all_space s = true.
Proof.
  split; [apply words_nil_all_space|].
  intros H. by rewrite words_alt, tokens_all_space.
Qed.

Lemma all_space_lower s : all_space (lower s) = all_space s.
Proof.
  unfold all_space, lower. induction s as [|c s IH]; [done|].
  simpl. by rewrite isspace_lower_char, IH.
Qed.

Lemma words_app_all_space_l u v :
  all_space u = true → words (u ++ v) = words v.
Proof.
  induction u as [|c u IH]; [done|]. intros [Hc Hu]%andb_prop.
  rewrite <-app_comm_cons, words_cons, Hc. by apply IH.
Qed.

Lemma lower_app u v : lower (u ++ v) = lower u ++ lower v.
Proof. unfold lower. apply map_app. Qed.

Lemma all_space_take n s : all_space s = true → all_space (take n s) = true.
Proof.
  revert n. induction s as [|c s IH]; intros [|n]; simpl; try done.
  intros [-> Hs]%andb_prop. simpl. by apply IH.
Qed.

Lemma words_clean_entries_lower (e : pyval) :
  words (clean_entries e)
  = if isnull e then [] else words (lower (str e)).
Proof.
  destruct e as [| |s]; [done | done |]. simpl.
  by rewrite words_clean_entries, words_lower.
Qed.

End normaliser_more.

(** X1. Two strings get the same normalised key exactly when their
    lower-cased forms split into the same words: case, surrounding
    whitespace and the amount of whitespace between words do not matter,
    everything else does. *)
Theorem clean_entries_same_key (u v : pystr) :
  clean_entries (PyStr u) = clean_entries (PyStr v)
  ↔ words (lower u) = words (lower v).
Proof.
  split; [apply clean_entries_words_eq|].
  intros H. by rewrite !clean_entries_str, H.
Qed.

(** X2. The normalised value is the empty string exactly for a missing
    value and for a string of whitespace only. *)
Theorem clean_entries_empty_iff (entry : pyval) :
  clean_entries entry = []
  ↔ isnull entry = true ∨ all_space (str entry) = true.
Proof.
  destruct entry as [| |s]; simpl; [by split; auto | by split; auto |].
  rewrite clean_entries_str, <-all_space_lower, <-words_all_space. split.
  - intros H. right. apply unwords_nil_inv in H; [done | apply words_is_word].
  - intros [?|H]; [done|]. by rewrite H.
Qed.

(** X4. Normalising two strings joined by a space gives the same result as
    normalising each first, joining, and normalising again. *)
Theorem clean_entries_join (u v : pystr) :
  clean_entries (PyStr (u ++ SP :: v))
  = clean_entries
      (PyStr (clean_entries (PyStr u) ++ SP :: clean_entries (PyStr v))).
Proof.
  rewrite !(clean_entries_str (_ ++ _)), !lower_app_space.
  rewrite !words_app_space by done.
  rewrite !lower_clean_entries, !words_clean_entries, !words_lower. done.
Qed.

(** ** Symbol filter *)

(** X5. Filtering a concatenation is concatenating the filtered parts. *)
Theorem strip_symbols_app (x y kept : pystr) :
  strip_symbols (x ++ y) kept
  = strip_symbols x kept ++ strip_symbols y kept.
Proof. rewrite !strip_symbols_filter. apply filter_app. Qed.

(** X6. Two passes with different character sets can be done in either
    order, and keep the characters that both sets contain. *)
Theorem strip_symbols_comm (x kept kept' : pystr) :
  strip_symbols (strip_symbols x kept) kept'
  = strip_symbols (strip_symbols x kept') kept
  ∧ strip_symbols (strip_symbols x kept) kept'
    = filter (λ c, c ∈ kept ∧ c ∈ kept') x.
Proof.
  rewrite !strip_symbols_filter, !list_filter_filter.
  split; apply list_filter_iff; tauto.
Qed.

(** X7. The name, cell and phone keys are filtered after they are
    normalised and not normalised again: a symbol that stands alone between
    two words is removed and both of its spaces stay, so the key has a
    doubled space. *)
Theorem apply_clean_strip_doubled_space (u v : pystr) (c : ascii) :
  u ≠ [] → v ≠ [] →
  Forall (λ x, x ∈ default_kept_chars ∧ isspace x = false) u →
  Forall (λ x, x ∈ default_kept_chars ∧ isspace x = false) v →
  isspace c = false → lower_char c ∉ default_kept_chars →
  apply_clean_strip [PyStr (u ++ [SP; c; SP] ++ v)] = [u ++ [SP; SP] ++ v].
Proof.
  intros Hu Hv Hku Hkv Hc Hlc.
  apply Forall_and in Hku as [Hku Hsu]. apply Forall_and in Hkv as [Hkv Hsv].
  assert (lower u = u) as Hlu.
  { unfold lower. rewrite <-(map_id u) at 2. apply map_ext_Forall.
    eapply Forall_impl; [exact Hku|]. apply default_kept_chars_lower. }
  assert (lower v = v) as Hlv.
  { unfold lower. rewrite <-(map_id v) at 2. apply map_ext_Forall.
    eapply Forall_impl; [exact Hkv|]. apply default_kept_chars_lower. }
  unfold apply_clean_strip. simpl. f_equal.
  rewrite clean_entries_str.
  change (u ++ [SP; c; SP] ++ v) with (u ++ SP :: c :: SP :: v).
  rewrite lower_app_space, Hlu.
  change (lower (c :: SP :: v)) with ([lower_char c] ++ SP :: lower v).
  rewrite Hlv, !words_app_space by done.
  rewrite !words_word; [| by split | split; [done|] | by split].
  2:{ constructor; [by rewrite isspace_lower_char | constructor]. }
  unfold strip_symbols_default.
  change (unwords ([u] ++ [[lower_char c]] ++ [v]))
    with (u ++ SP :: lower_char c :: SP :: v).
  rewrite !strip_symbols_filter, !filter_app.
  rewrite filter_cons_True by apply default_kept_chars_space.
  rewrite (filter_cons_False _ (lower_char c)) by done.
  rewrite filter_cons_True by apply default_kept_chars_space.
  assert (∀ w, Forall (λ x, x ∈ default_kept_chars) w →
               filter (λ x, x ∈ default_kept_chars) w = w) as Hid.
  { intros w Hw. rewrite <-strip_symbols_filter. by apply strip_symbols_id. }
  by rewrite !Hid by done.
Qed.

(** The property on the name "smith & sons". *)
Lemma apply_clean_strip_doubled_space_witness :
  apply_clean_strip [PyStr (lit "smith" ++ [SP; "&"%char; SP] ++ lit "sons")]
  = [lit "smith" ++ [SP; SP] ++ lit "sons"].
Proof.
  apply (apply_clean_strip_doubled_space (lit "smith") (lit "sons") "&"%char);
    try done.
  - apply (bool_decide_unpack _). by vm_compute.
  - apply (bool_decide_unpack _). by vm_compute.
  - apply (bool_decide_unpack _). by vm_compute.
Defined.

(** ** Address canonicaliser *)

Section address_more.

Lemma words_join (parts : list (list ascii)) :
  words (join [SP] parts) = parts ≫= words.
Proof.
  induction parts as [|x [|y parts] IH]; [done | |].
  - simpl. by rewrite app_nil_r.
  - change (join [SP] (x :: y :: parts)) with (x ++ SP :: join [SP] (y :: parts)).
    rewrite words_app_space by done. by rewrite IH.
Qed.

Lemma join_kept (parts : list (list ascii)) :
  Forall (Forall (λ c, c ∈ default_kept_chars)) parts →
  Forall (λ c, c ∈ default_kept_chars) (join [SP] parts).
Proof.
  induction 1 as [|x parts Hx Hparts IH]; [constructor|].
  rewrite join_cons. apply Forall_app. split; [done|].
  clear IH. induction Hparts as [|y parts Hy _ IH]; [constructor|].
  simpl. constructor; [apply default_kept_chars_space|].
  apply Forall_app. by split.
Qed.

Lemma lower_kept (s : list ascii) :
  Forall (λ c, c ∈ default_kept_chars) s → lower s = s.
Proof.
  intros Hs. unfold lower. rewrite <-(map_id s) at 2. apply map_ext_Forall.
  eapply Forall_impl; [exact Hs|]. apply default_kept_chars_lower.
Qed.

Lemma filtered_parts_kept (components : list pyval) :
  Forall (Forall (λ c, c ∈ default_kept_chars))
    ((λ x, strip_symbols_default (clean_entries x)) <$> components).
Proof.
  apply Forall_fmap, Forall_forall. intros x _. apply strip_symbols_Forall.
Qed.

(** The reference string is the words of the filtered components, in
    order, joined by single spaces. *)
Lemma canonical_address_reference_words (components : list pyval) :
  canonical_address_reference components
  = unwords (components ≫=
               λ x, words (strip_symbols_default (clean_entries x))).
Proof.
  unfold canonical_address_reference. rewrite clean_entries_str.
  rewrite lower_kept by apply join_kept, filtered_parts_kept.
  by rewrite words_join, list_fmap_bind.
Qed.

Lemma canonical_address_reference_kept (components : list pyval) :
  Forall (λ c, c ∈ default_kept_chars)
    (canonical_address_reference components).
Proof. apply clean_entries_kept, join_kept, filtered_parts_kept. Qed.

Lemma length_combine_lambda (col_1 col_2 : list pyval) :
  length (combine_lambda col_1 col_2) = length col_1 `min` length col_2.
Proof.
  unfold combine_lambda, series_add, series_add_scalar.
  by rewrite length_fmap, length_zip_with, !length_fmap.
Qed.

Lemma length_foldl_combine_lambda (cols : list (list pyval)) col n :
  length col = n → Forall (λ c, length c = n) cols →
  length (foldl combine_lambda col cols) = n.
Proof.
  intros Hcol Hcols. revert col Hcol.
  induction Hcols as [|c cols Hc _ IH]; intros col Hcol; [done|].
  simpl. apply IH. rewrite length_combine_lambda. lia.
Qed.

End address_more.

(** X8. For two or more columns, the address of a row is made of the words
    of its filtered components, in column order, with one space between
    two words. *)
Theorem combine_address_columns_words
    (address_columns : list (list pyval)) (components : list pyval) (i : nat) :
  2 ≤ length address_columns →
  Forall2 (λ col x, col !! i = Some x) address_columns components →
  ∃ combined,
    combine_address_columns address_columns = Some combined
    ∧ combined !! i
      = Some (unwords (components ≫=
                 λ x, words (strip_symbols_default (clean_entries x)))).
Proof.
  intros Hlen Hrows.
  destruct (combine_address_columns_lookup _ _ i Hlen Hrows)
    as (combined & Hrun & Hrow).
  exists combined. by rewrite <-canonical_address_reference_words.
Qed.

Lemma combine_address_columns_words_witness :
  ∃ combined,
    combine_address_columns
      [[PyStr (lit "12  Oak St.")]; [PyNaN]; [PyStr (lit " Apt #4 ")]]
    = Some combined
    ∧ combined !! 0
      = Some (unwords
                ([PyStr (lit "12  Oak St."); PyNaN; PyStr (lit " Apt #4 ")]
                 ≫= λ x, words (strip_symbols_default (clean_entries x)))).
Proof.
  apply (combine_address_columns_words
           [[PyStr (lit "12  Oak St.")]; [PyNaN]; [PyStr (lit " Apt #4 ")]]
           [PyStr (lit "12  Oak St."); PyNaN; PyStr (lit " Apt #4 ")] 0).
  - simpl. lia.
  - repeat constructor.
Defined.

(** X9. A column whose cell is missing in a row contributes nothing to the
    address of that row: with the column or without it (two or more columns
    remaining) the address is the same. *)
Theorem combine_address_columns_missing_cell
    (before after : list (list pyval)) (col : list pyval)
    (cells_before cells_after : list pyval) (x : pyval) (i : nat) :
  2 ≤ length (before ++ after) →
  Forall2 (λ col x, col !! i = Some x) before cells_before →
  Forall2 (λ col x, col !! i = Some x) after cells_after →
  col !! i = Some x → isnull x = true →
  ∃ address,
    combine_address_columns (before ++ col :: after) ≫= (.!! i) = Some address
    ∧ combine_address_columns (before ++ after) ≫= (.!! i) = Some address.
Proof.
  intros Hlen Hbefore Hafter Hcol Hnull.
  destruct (combine_address_columns_lookup (before ++ col :: after)
              (cells_before ++ x :: cells_after) i)
    as (with_col & Hrun & Hrow).
  { rewrite length_app in *. simpl. lia. }
  { apply Forall2_app; [done|]. by constructor. }
  destruct (combine_address_columns_lookup (before ++ after)
              (cells_before ++ cells_after) i)
    as (without_col & Hrun' & Hrow'); [done | by apply Forall2_app |].
  exists (canonical_address_reference (cells_before ++ cells_after)).
  rewrite Hrun, Hrun'. simpl. rewrite Hrow, Hrow'. split; [|done].
  rewrite !canonical_address_reference_words, !bind_app, bind_cons.
  by rewrite clean_entries_null.
Qed.

Lemma combine_address_columns_missing_cell_witness :
  ∃ address,
    combine_address_columns
      ([[PyStr (lit "12 Oak St")]] ++ [PyNaN] :: [[PyStr (lit "19104")]])
      ≫= (.!! 0) = Some address
    ∧ combine_address_columns
        ([[PyStr (lit "12 Oak St")]] ++ [[PyStr (lit "19104")]])
        ≫= (.!! 0) = Some address.
Proof.
  apply (combine_address_columns_missing_cell
           [[PyStr (lit "12 Oak St")]] [[PyStr (lit "19104")]] [PyNaN]
           [PyStr (lit "12 Oak St")] [PyStr (lit "19104")] PyNaN 0).
  - simpl. lia.
  - repeat constructor.
  - repeat constructor.
  - reflexivity.
  - reflexivity.
Defined.

(** X10. For two or more columns every character of an address is in the
    default character set: lower-case letters, digits, space and hyphen. *)
Theorem combine_address_columns_charset
    (address_columns : list (list pyval)) (components : list pyval) (i : nat) :
  2 ≤ length address_columns →
  Forall2 (λ col x, col !! i = Some x) address_columns components →
  ∃ address,
    combine_address_columns address_columns ≫= (.!! i) = Some address
    ∧ Forall (λ c, c ∈ default_kept_chars) address.
Proof.
  intros Hlen Hrows.
  destruct (combine_address_columns_lookup _ _ i Hlen Hrows)
    as (combined & Hrun & Hrow).
  exists (canonical_address_reference components).
  rewrite Hrun. simpl. split; [done|]. apply canonical_address_reference_kept.
Qed.

Lemma combine_address_columns_charset_witness :
  ∃ address,
    combine_address_columns
      [[PyStr (lit "12 Oak St.")]; [PyStr (lit "Apt #4")]] ≫= (.!! 0)
    = Some address
    ∧ Forall (λ c, c ∈ default_kept_chars) address.
Proof.
  apply (combine_address_columns_charset
           [[PyStr (lit "12 Oak St.")]; [PyStr (lit "Apt #4")]]
           [PyStr (lit "12 Oak St."); PyStr (lit "Apt #4")] 0).
  - simpl. lia.
  - repeat constructor.
Defined.

(** X11. When the columns all have [n] rows, so has the combined column:
    one address per row. *)
Theorem combine_address_columns_length
    (address_columns : list (list pyval)) (n : nat) :
  address_columns ≠ [] →
  Forall (λ col, length col = n) address_columns →
  ∃ combined,
    combine_address_columns address_columns = Some combined
    ∧ length combined = n.
Proof.
  intros Hne Hall. destruct address_columns as [|col cols]; [done|].
  apply Forall_cons in Hall as [Hcol Hcols].
  eexists. split; [reflexivity|].
  rewrite length_fmap. by apply length_foldl_combine_lambda.
Qed.

Lemma combine_address_columns_length_witness :
  ∃ combined,
    combine_address_columns
      [[PyStr (lit "12 Oak St"); PyNaN]; [PyStr (lit "19104"); PyNone]]
    = Some combined
    ∧ length combined = 2.
Proof.
  apply (combine_address_columns_length
           [[PyStr (lit "12 Oak St"); PyNaN]; [PyStr (lit "19104"); PyNone]] 2).
  - done.
  - repeat constructor.
Defined.

(** ** Postal code *)

(** X12. The postal-code component has a cell for every cell of the
    column; every cell is a string of at most five characters, and a raw
    string of at most five characters is passed on unchanged. *)
Theorem postal_code_component_cells_short (series : list pyval) :
  length (postal_code_component series) = length series
  ∧ Forall (λ v, ∃ s, v = PyStr s ∧ length s ≤ 5)
      (postal_code_component series)
  ∧ (∀ i s, series !! i = Some (PyStr s) → length s ≤ 5 →
            postal_code_component series !! i = Some (PyStr s)).
Proof.
  rewrite postal_code_component_cells. split_and!.
  - by rewrite length_fmap.
  - apply Forall_fmap, Forall_forall. intros v _. simpl.
    eexists. split; [done|]. rewrite length_take. lia.
  - intros i s Hi Hlen. rewrite list_lookup_fmap, Hi. simpl.
    by rewrite take_ge by done.
Qed.

(** X13. The five characters are counted on the raw value, before it is
    normalised: leading whitespace uses them up, and the address gets
    fewer than five characters of the code. *)
Theorem postal_code_leading_whitespace (ws s : pystr) :
  all_space ws = true →
  clean_entries <$> postal_code_component [PyStr (ws ++ s)]
  = [clean_entries (PyStr (take (5 - length ws) s))].
Proof.
  intros Hws. rewrite postal_code_component_cells. simpl. f_equal.
  rewrite take_app, !clean_entries_str, lower_app.
  rewrite words_app_all_space_l; [done|].
  rewrite all_space_lower. by apply all_space_take.
Qed.

Lemma postal_code_leading_whitespace_witness :
  clean_entries <$> postal_code_component [PyStr ([SP] ++ lit "19104-2345")]
  = [clean_entries (PyStr (take (5 - length [SP]) (lit "19104-2345")))].
Proof.
  apply (postal_code_leading_whitespace [SP] (lit "19104-2345")).
  reflexivity.
Defined.

Example postal_code_leading_whitespace_ex :
  clean_entries <$> postal_code_component [PyStr (lit " 19104-2345")]
  = [lit "1910"].
Proof. reflexivity. Qed.

(** ** The three cells *)

Section cells_more.

Variable expand_address : list ascii → list (list ascii) → option (list (list ascii)).
Variable json_dumps : list (list ascii) → list ascii.

Local Ltac case_lookups :=
  repeat first
    [ rewrite lookup_insert_ne by done
    | match goal with
      | |- context [?m !! ?k] =>
          is_var m;
          lazymatch type of m with gmap _ _ => idtac end;
          destruct (m !! k) eqn:?; simpl
      end ].

(** What the match-key statements leave behind: the table with the four
    key columns set. *)
Lemma match_keys_Some src (df df' : DataFrame) :
  match_keys src df = Some df' →
  ∃ n e c p,
    df' = <["match_phone" := p]> (<["match_cell" := c]>
            (<["match_email" := e]> (<["match_name" := n]> df))).
Proof.
  destruct src; simpl;
    unfold petpoint_match_keys, volgistics_match_keys, sf_contacts_match_keys;
    case_lookups; intros [= <-]; eauto.
Qed.

Lemma match_keys_is_Some src (df : DataFrame) :
  is_Some (match_keys src df)
  ↔ Forall (λ k, is_Some (df !! k)) (match_key_columns src).
Proof.
  destruct src; simpl;
    unfold petpoint_match_keys, volgistics_match_keys, sf_contacts_match_keys,
      match_key_columns; simpl; rewrite ?Forall_cons, Forall_nil;
    case_lookups; rewrite !is_Some_alt; tauto.
Qed.

Lemma addr_components_is_Some src (df : DataFrame) :
  is_Some (addr_components src df)
  ↔ Forall (λ k, is_Some (df !! k)) (address_columns src).
Proof.
  destruct src; simpl;
    unfold petpoint_addr_components, volgistics_addr_components,
      sf_contacts_addr_components, address_columns; simpl;
    rewrite ?Forall_cons, Forall_nil;
    case_lookups; rewrite !is_Some_alt; tauto.
Qed.

Lemma set_match_address_list_Some comps (df df' : DataFrame) :
  set_match_address_list comps df = Some df' →
  ∃ a, combine_address_columns comps = Some a
       ∧ df' = <["match_address_list" := PyStr <$> a]> df.
Proof.
  unfold set_match_address_list.
  destruct (combine_address_columns comps) as [a|]; simpl; [|done].
  intros [= <-]. by exists a.
Qed.

Lemma expand_match_address_list_Some (df df' : DataFrame) :
  expand_match_address_list expand_address json_dumps df = Some df' →
  ∃ col expanded,
    df !! "match_address_list" = Some col
    ∧ apply_expand_address expand_address col = Some expanded
    ∧ df' = <["match_address_list" := PyStr <$> (json_dumps <$> expanded)]> df.
Proof.
  unfold expand_match_address_list.
  destruct (df !! "match_address_list") as [col|]; simpl; [|done].
  destruct (apply_expand_address expand_address col) as [expanded|] eqn:He;
    simpl; [|done].
  intros [= <-]. by exists col, expanded.
Qed.

(** A cell that runs to its end leaves the table with the five key columns
    set. *)
Lemma source_cell_Some src (df df' : DataFrame) :
  source_cell expand_address json_dumps src df = Some df' →
  ∃ n e c p a,
    df' = <["match_address_list" := a]> (<["match_phone" := p]>
            (<["match_cell" := c]> (<["match_email" := e]>
               (<["match_name" := n]> df)))).
Proof.
  unfold source_cell. intros H.
  destruct (match_keys src df) as [df1|] eqn:H1; simpl in H; [|done].
  destruct (addr_components src df1) as [comps|]; simpl in H; [|done].
  destruct (set_match_address_list comps df1) as [df2|] eqn:H2; simpl in H;
    [|done].
  apply match_keys_Some in H1 as (n & e & c & p & ->).
  apply set_match_address_list_Some in H2 as (a & _ & ->).
  apply expand_match_address_list_Some in H as (col & expanded & _ & _ & ->).
  rewrite insert_insert_eq. eauto 10.
Qed.

(** X14. The match-key statements of a cell run to their end exactly when
    the table has the columns they read; a missing column raises
    [KeyError]. *)
Theorem match_keys_columns_required (src : source) (df : DataFrame) :
  is_Some (match_keys src df)
  ↔ Forall (λ k, is_Some (df !! k)) (match_key_columns src).
Proof. apply match_keys_is_Some. Qed.

(** X15. A cell that runs to its end changes no column other than the five
    key columns it writes, and the table then has exactly the columns it
    had and those five. *)
Theorem source_cell_frame (src : source) (df df' : DataFrame) :
  source_cell expand_address json_dumps src df = Some df' →
  (∀ k, k ∉ match_columns → df' !! k = df !! k)
  ∧ dom df' = dom df ∪ list_to_set match_columns.
Proof.
  intros (n & e & c & p & a & ->)%source_cell_Some. split.
  - intros k Hk. unfold match_columns in Hk.
    rewrite !not_elem_of_cons in Hk. destruct_and!.
    by rewrite !lookup_insert_ne by done.
  - rewrite !dom_insert_L. unfold match_columns. simpl.
    apply set_eq. intros k. rewrite !elem_of_union, !elem_of_singleton.
    rewrite elem_of_empty. tauto.
Qed.

(** X16. A cell runs to its end only on a table that has every column it
    reads, the name, e-mail and phone columns and the address columns. *)
Theorem source_cell_columns_required (src : source) (df df' : DataFrame) :
  source_cell expand_address json_dumps src df = Some df' →
  Forall (λ k, is_Some (df !! k))
    (match_key_columns src ++ address_columns src).
Proof.
  unfold source_cell. intros H.
  destruct (match_keys src df) as [df1|] eqn:H1; simpl in H; [|done].
  destruct (addr_components src df1) as [comps|] eqn:H2; simpl in H; [|done].
  apply Forall_app. split.
  - apply match_keys_is_Some. by rewrite H1.
  - assert (is_Some (addr_components src df1)) as Hc by (by rewrite H2).
    apply addr_components_is_Some in Hc.
    apply match_keys_Some in H1 as (n & e & c & p & ->).
    clear -Hc. destruct src; unfold address_columns in *; simpl in *;
      rewrite ?Forall_cons, ?Forall_nil in *;
      rewrite ?lookup_insert_ne in Hc by done; exact Hc.
Qed.

Lemma addr_components_length src (df : DataFrame) comps :
  addr_components src df = Some comps → 2 ≤ length comps.
Proof.
  destruct src; simpl;
    unfold petpoint_addr_components, volgistics_addr_components,
      sf_contacts_addr_components;
    case_lookups; intros [= <-]; simpl; lia.
Qed.

Lemma apply_expand_address_total (col : list (list ascii)) :
  (∀ s, is_Some (expand_address s [lit "en"])) →
  is_Some (apply_expand_address expand_address (PyStr <$> col)).
Proof.
  intros Htotal. apply mapM_is_Some_2, Forall_fmap, Forall_forall.
  intros s _. apply Htotal.
Qed.

(** X17. With a boundary that returns a result for every address, a cell
    runs to its end on every table that has the columns it reads. *)
Theorem source_cell_runs (src : source) (df : DataFrame) :
  (∀ s, is_Some (expand_address s [lit "en"])) →
  Forall (λ k, is_Some (df !! k))
    (match_key_columns src ++ address_columns src) →
  is_Some (source_cell expand_address json_dumps src df).
Proof.
  intros Htotal [Hkeys Haddr]%Forall_app.
  apply match_keys_is_Some in Hkeys as [df1 H1].
  unfold source_cell. rewrite H1. simpl.
  assert (is_Some (addr_components src df1)) as [comps H2].
  { apply addr_components_is_Some.
    apply match_keys_Some in H1 as (n & e & c & p & ->).
    clear -Haddr. destruct src; unfold address_columns in *; simpl in *;
      rewrite ?Forall_cons, ?Forall_nil in *;
      rewrite ?lookup_insert_ne by done; exact Haddr. }
  rewrite H2. simpl. unfold set_match_address_list.
  apply addr_components_length in H2.
  destruct comps as [|col comps]; [simpl in H2; lia|]. simpl.
  unfold expand_match_address_list. rewrite lookup_insert_eq. simpl.
  destruct (apply_expand_address_total
              (clean_entries <$> foldl combine_lambda col comps) Htotal)
    as [expanded ->].
  by eexists.
Qed.

End cells_more.

Lemma source_cell_frame_witness :
  let df' :=
    default ∅ (source_cell (λ s _, Some [s]) json_dumps_plain Petpoint
                 petpoint_example) in
  (∀ k, k ∉ match_columns → df' !! k = petpoint_example !! k)
  ∧ dom df' = dom petpoint_example ∪ list_to_set match_columns.
Proof.
  intros df'.
  apply (source_cell_frame (λ s _, Some [s]) json_dumps_plain Petpoint
           petpoint_example df').
  by vm_compute.
Defined.

Lemma source_cell_columns_required_witness :
  Forall (λ k, is_Some (petpoint_example !! k))
    (match_key_columns Petpoint ++ address_columns Petpoint).
Proof.
  apply (source_cell_columns_required (λ s _, Some [s]) json_dumps_plain
           Petpoint petpoint_example
           (default ∅ (source_cell (λ s _, Some [s]) json_dumps_plain Petpoint
                         petpoint_example))).
  by vm_compute.
Defined.

Lemma source_cell_runs_witness :
  is_Some (source_cell (λ s _, Some [s]) json_dumps_plain Petpoint
             petpoint_example).
Proof.
  apply (source_cell_runs (λ s _, Some [s]) json_dumps_plain Petpoint
           petpoint_example).
  - intros s. by eexists.
  - apply (bool_decide_unpack _). by vm_compute.
Defined.

Section cells_rows.

Variable expand_address : list ascii → list (list ascii) → option (list (list ascii)).
Variable json_dumps : list (list ascii) → list ascii.

Local Ltac open_columns :=
  repeat match goal with
  | H : Forall _ (_ :: _) |- _ => apply Forall_cons in H as [(? & ? & ?) H]
  | H : Forall _ [] |- _ => clear H
  end.

Lemma length_apply_clean_strip (col : list pyval) :
  length (apply_clean_strip col) = length col.
Proof. unfold apply_clean_strip. by rewrite !length_fmap. Qed.

Lemma match_keys_rows src (df df1 : DataFrame) n :
  Forall (has_rows df n) (match_key_columns src) →
  match_keys src df = Some df1 →
  Forall (has_rows df1 n)
    ["match_name"; "match_email"; "match_cell"; "match_phone"].
Proof.
  intros Hcols.
  destruct src; unfold match_key_columns in Hcols; simpl in *; open_columns;
    unfold petpoint_match_keys, volgistics_match_keys, sf_contacts_match_keys;
    simplify_map_eq; intros [= <-];
    repeat (constructor; [eexists; split; [by simplify_map_eq|] |]);
    try constructor;
    unfold series_add, series_add_scalar;
    rewrite ?length_fmap, ?length_zip_with, ?length_fmap,
      ?length_apply_clean_strip; lia.
Qed.

Lemma addr_components_rows src (df : DataFrame) comps n :
  Forall (has_rows df n) (address_columns src) →
  addr_components src df = Some comps →
  Forall (λ col, length col = n) comps.
Proof.
  intros Hcols.
  destruct src; unfold address_columns in Hcols; simpl in *; open_columns;
    unfold petpoint_addr_components, volgistics_addr_components,
      sf_contacts_addr_components;
    simplify_map_eq; intros [= <-];
    repeat (constructor; [done|]);
    (constructor; [|constructor]);
    unfold postal_code_component, str_slice_to, fillna;
    by rewrite !length_fmap.
Qed.

(** X18. When the columns a cell reads all have [n] rows and the cell runs
    to its end, each of the five key columns has [n] rows: one key of each
    kind per record. *)
Theorem source_cell_rows (src : source) (df df' : DataFrame) (n : nat) :
  Forall (λ k, ∃ col, df !! k = Some col ∧ length col = n)
    (match_key_columns src ++ address_columns src) →
  source_cell expand_address json_dumps src df = Some df' →
  Forall (λ k, ∃ col, df' !! k = Some col ∧ length col = n) match_columns.
Proof.
  intros [Hkeys Haddr]%Forall_app H. unfold source_cell in H.
  destruct (match_keys src df) as [df1|] eqn:H1; simpl in H; [|done].
  destruct (addr_components src df1) as [comps|] eqn:H2; simpl in H; [|done].
  destruct (set_match_address_list comps df1) as [df2|] eqn:H3; simpl in H;
    [|done].
  pose proof (match_keys_rows _ _ _ _ Hkeys H1) as Hrows.
  assert (Forall (has_rows df1 n) (address_columns src)) as Haddr1.
  { apply match_keys_Some in H1 as (a & e & c & p & ->).
    clear -Haddr. destruct src; unfold address_columns in *; simpl in *;
      rewrite ?Forall_cons, ?Forall_nil in *; unfold has_rows;
      rewrite ?lookup_insert_ne by done; exact Haddr. }
  pose proof (addr_components_rows _ _ _ _ Haddr1 H2) as Hcomps.
  apply set_match_address_list_Some in H3 as (combined & Hrun & ->).
  apply expand_match_address_list_Some in H
    as (col & expanded & Hcol & Hexp & ->).
  rewrite lookup_insert_eq in Hcol. injection Hcol as <-.
  apply length_mapM in Hexp. rewrite length_fmap in Hexp.
  assert (length combined = n) as Hlen.
  { destruct comps as [|c0 comps]; [done|]. injection Hrun as <-.
    apply Forall_cons in Hcomps as [Hc0 Hcomps].
    rewrite length_fmap. by apply length_foldl_combine_lambda. }
  rewrite insert_insert_eq. unfold match_columns.
  change ["match_name"; "match_email"; "match_cell"; "match_phone";
          "match_address_list"]
    with (["match_name"; "match_email"; "match_cell"; "match_phone"]
          ++ ["match_address_list"]).
  apply Forall_app. split.
  - eapply Forall_impl; [exact Hrows|]. intros k (c & Hk & Hc).
    destruct (decide (k = "match_address_list")) as [->|Hne].
    + eexists. rewrite lookup_insert_eq. split; [done|].
      rewrite !length_fmap. lia.
    + exists c. by rewrite lookup_insert_ne.
  - constructor; [|constructor]. eexists. rewrite lookup_insert_eq.
    split; [done|]. rewrite !length_fmap. lia.
Qed.

End cells_rows.

Lemma source_cell_rows_witness :
  Forall (λ k, ∃ col,
            default ∅ (source_cell (λ s _, Some [s]) json_dumps_plain Petpoint
                         petpoint_example) !! k = Some col
            ∧ length col = 1)
    match_columns.
Proof.
  apply (source_cell_rows (λ s _, Some [s]) json_dumps_plain Petpoint
           petpoint_example _ 1).
  - repeat (constructor; [eexists; split; [by vm_compute | reflexivity]|]).
    constructor.
  - by vm_compute.
Defined.

(** X19. The salesforce name key is the two filtered name parts with a
    space between and is not normalised afterwards: when the last name of a
    row is missing the key starts with a space, when the first name is
    missing it ends with one. *)
Theorem sf_contacts_match_name_missing_part (df df' : DataFrame)
    (last_name first_name : list pyval) (i : nat) (l f : pyval) :
  df !! "last_name" = Some last_name →
  df !! "first_name" = Some first_name →
  sf_contacts_match_keys df = Some df' →
  last_name !! i = Some l → first_name !! i = Some f →
  ∃ key,
    df' !! "match_name" ≫= (.!! i) = Some (PyStr key)
    ∧ (isnull l = true →
       key = SP :: strip_symbols_default (clean_entries f))
    ∧ (isnull f = true →
       key = strip_symbols_default (clean_entries l) ++ [SP]).
Proof.
  intros Hlast Hfirst Hrun Hl Hf.
  unfold sf_contacts_match_keys in Hrun. rewrite Hlast, Hfirst in Hrun.
  simpl in Hrun. rewrite !lookup_insert_ne in Hrun by done.
  destruct (df !! "email") as [email|]; simpl in Hrun; [|done].
  rewrite !lookup_insert_ne in Hrun by done.
  destruct (df !! "mobile") as [mobile|]; simpl in Hrun; [|done].
  rewrite !lookup_insert_ne in Hrun by done.
  destruct (df !! "phone") as [phone|]; simpl in Hrun; [|done].
  injection Hrun as <-.
  exists ((strip_symbols_default (clean_entries l) ++ [SP])
          ++ strip_symbols_default (clean_entries f)).
  split_and!.
  - rewrite !lookup_insert_ne, lookup_insert_eq by done. simpl.
    unfold series_add, series_add_scalar, apply_clean_strip.
    by rewrite list_lookup_fmap, lookup_zip_with, !list_lookup_fmap, Hl, Hf.
  - intros Hnull. by rewrite (clean_entries_null l Hnull).
  - intros Hnull. by rewrite (clean_entries_null f Hnull), app_nil_r.
Qed.

Lemma sf_contacts_match_name_missing_part_witness :
  let df : DataFrame :=
    list_to_map
      [("last_name", [PyNaN]); ("first_name", [PyStr (lit "Jane")]);
       ("email", [PyNaN]); ("mobile", [PyNaN]); ("phone", [PyNaN])] in
  ∃ key,
    default ∅ (sf_contacts_match_keys df) !! "match_name" ≫= (.!! 0)
    = Some (PyStr key)
    ∧ (isnull PyNaN = true →
       key = SP :: strip_symbols_default (clean_entries (PyStr (lit "Jane"))))
    ∧ (isnull (PyStr (lit "Jane")) = true →
       key = strip_symbols_default (clean_entries PyNaN) ++ [SP]).
Proof.
  intros df.
  apply (sf_contacts_match_name_missing_part df _ [PyNaN] [PyStr (lit "Jane")]
           0 PyNaN (PyStr (lit "Jane")));
    by vm_compute.
Defined.

Example sf_contacts_match_name_ex :
  apply_clean_strip [PyNaN] = [[]]
  ∧ series_add (series_add_scalar (apply_clean_strip [PyNaN]) [SP])
      (apply_clean_strip [PyStr (lit "Jane")])
    = [lit " jane"].
Proof. by vm_compute. Qed.

(** ** Importing a table *)

Section import_more.

Implicit Types (s t u v : list ascii) (c r : ascii) (cls : ascii → bool).

Lemma sub_runs_Forall (P : ascii → Prop) cls r b s :
  P r → Forall P s → Forall P (sub_runs cls r b s).
Proof.
  intros Hr Hs. revert b. induction Hs as [|c s Hc _ IH]; intros b; simpl;
    [constructor|].
  destruct (cls c), b; try constructor; auto.
Qed.

Lemma sub_runs_no_class cls r b s :
  cls r = false → Forall (λ c, cls c = false) (sub_runs cls r b s).
Proof.
  intros Hr. revert b. induction s as [|c s IH]; intros b; simpl;
    [constructor|].
  destruct (cls c) eqn:Hc, b; try constructor; auto.
Qed.

Lemma sub_runs_id cls r b s :
  Forall (λ c, cls c = false) s → sub_runs cls r b s = s.
Proof.
  intros Hs. revert b. induction Hs as [|c s Hc _ IH]; intros b; simpl; [done|].
  by rewrite Hc, IH.
Qed.

Lemma sub_runs_app_plain cls r b s t :
  s ≠ [] → Forall (λ c, cls c = false) s →
  sub_runs cls r b (s ++ t) = s ++ sub_runs cls r false t.
Proof.
  intros Hne Hs. revert b. induction Hs as [|c s Hc Hs IH]; intros b; [done|].
  simpl. rewrite Hc. f_equal. destruct s as [|d s]; [done|]. by apply IH.
Qed.

Lemma Forall_strip (P : ascii → Prop) s : Forall P s → Forall P (strip s).
Proof.
  rewrite !Forall_forall. intros Hs c Hc%elem_of_strip. by apply Hs.
Qed.

Lemma strip_no_space s : Forall (λ c, isspace c = false) s → strip s = s.
Proof.
  intros Hs. unfold strip. rewrite lstrip_id.
  - apply rstrip_id. destruct (last s) as [c|] eqn:Hl; [|done].
    apply last_Some in Hl as [s' ->].
    by apply Forall_app in Hs as [_ [? _]%Forall_cons].
  - by destruct Hs.
Qed.

Lemma strip_ends u v :
  match u with [] => False | c :: _ => isspace c = false end →
  match last v with None => False | Some c => isspace c = false end →
  strip (u ++ v) = u ++ v.
Proof.
  intros Hu Hv. unfold strip. rewrite lstrip_id by (by destruct u).
  apply rstrip_id. rewrite last_app. by destruct (last v).
Qed.

Lemma zip_fmap_fst_snd {A B C} (f : A → C) (l : list (A * B)) :
  zip (f <$> l.*1) l.*2 = prod_map f id <$> l.
Proof. induction l as [|[a b] l IH]; [done|]. csimpl. by f_equal. Qed.

Lemma clean_column_label_plain x :
  Forall plain_label (clean_column_label x).
Proof.
  unfold clean_column_label.
  assert (Forall (λ c, lower_char c = c) (lower x)) as Hlow.
  { apply Forall_fmap, Forall_forall. intros c _. apply lower_char_idemp. }
  apply Forall_and; split; [|apply Forall_and; split].
  - apply sub_runs_Forall; [done|]. by apply sub_runs_no_class.
  - by apply sub_runs_no_class.
  - apply sub_runs_Forall; [done|]. apply sub_runs_Forall; [done|].
    by apply Forall_strip.
Qed.

Lemma clean_column_label_id x :
  Forall plain_label x → clean_column_label x = x.
Proof.
  intros H. apply Forall_and in H as [Hsp H].
  apply Forall_and in H as [Hdot Hlow].
  unfold clean_column_label.
  assert (lower x = x) as ->.
  { unfold lower. rewrite <-(map_id x) at 2. by apply map_ext_Forall. }
  rewrite strip_no_space by done.
  rewrite (sub_runs_id isspace) by done. by apply sub_runs_id.
Qed.

End import_more.

(** X20. A cleaned column label has no whitespace and no period, and is in
    lower case. *)
Theorem clean_column_label_closure (x : pystr) :
  Forall (λ c, isspace c = false ∧ c ≠ "."%char ∧ lower_char c = c)
    (clean_column_label x).
Proof.
  eapply Forall_impl; [apply clean_column_label_plain|].
  intros c (Hsp & Hdot & Hlow). split_and!; [done | | done].
  intros ->. done.
Qed.

(** X21. Cleaning a column label twice is cleaning it once. *)
Theorem clean_column_label_idempotent (x : pystr) :
  clean_column_label (clean_column_label x) = clean_column_label x.
Proof. apply clean_column_label_id, clean_column_label_plain. Qed.

(** X22. Different labels can get the same cleaned label: a space and a
    period between two words both become one underscore.  Runs of
    underscores are not merged: a period with a space on either side
    becomes three underscores. *)
Theorem clean_column_label_collision (u v : pystr) :
  u ≠ [] → v ≠ [] → Forall plain_label u → Forall plain_label v →
  clean_column_label (u ++ [SP] ++ v) = u ++ ["_"%char] ++ v
  ∧ clean_column_label (u ++ ["."%char] ++ v) = u ++ ["_"%char] ++ v
  ∧ clean_column_label (u ++ [SP; "."%char; SP] ++ v)
    = u ++ ["_"%char; "_"%char; "_"%char] ++ v.
Proof.
  intros Hu Hv Hpu Hpv.
  apply Forall_and in Hpu as [Hsu Hpu]. apply Forall_and in Hpu as [Hdu Hlu].
  apply Forall_and in Hpv as [Hsv Hpv]. apply Forall_and in Hpv as [Hdv Hlv].
  assert (lower u = u) as Hlow_u.
  { unfold lower. rewrite <-(map_id u) at 2. by apply map_ext_Forall. }
  assert (lower v = v) as Hlow_v.
  { unfold lower. rewrite <-(map_id v) at 2. by apply map_ext_Forall. }
  assert (match u with [] => False | c :: _ => isspace c = false end) as Hhd.
  { destruct Hsu; done. }
  assert (∀ w, match last (w ++ v) with
               | None => False | Some c => isspace c = false end) as Hlast.
  { intros w. rewrite last_app. destruct (last v) as [c|] eqn:Hl.
    - apply last_Some in Hl as [v' ->].
      by apply Forall_app in Hsv as [_ [? _]%Forall_cons].
    - apply last_None in Hl. done. }
  unfold clean_column_label. split_and!.
  - rewrite lower_app, Hlow_u. change (lower ([SP] ++ v)) with (SP :: lower v).
    rewrite Hlow_v. rewrite (strip_ends u (SP :: v) Hhd (Hlast [SP])).
    rewrite (sub_runs_app_plain isspace) by done. simpl.
    rewrite (sub_runs_id isspace _ true v) by done.
    rewrite (sub_runs_app_plain is_period) by done. simpl.
    by rewrite sub_runs_id.
  - rewrite lower_app, Hlow_u.
    change (lower (["."%char] ++ v)) with ("."%char :: lower v).
    rewrite Hlow_v. rewrite (strip_ends u ("."%char :: v) Hhd (Hlast ["."%char])).
    rewrite (sub_runs_app_plain isspace) by done. simpl.
    rewrite (sub_runs_id isspace _ false v) by done.
    rewrite (sub_runs_app_plain is_period) by done. simpl.
    by rewrite (sub_runs_id is_period _ true v) by done.
  - rewrite lower_app, Hlow_u.
    change (lower ([SP; "."%char; SP] ++ v))
      with (SP :: "."%char :: SP :: lower v).
    rewrite Hlow_v.
    rewrite (strip_ends u (SP :: "."%char :: SP :: v) Hhd
               (Hlast [SP; "."%char; SP])).
    rewrite (sub_runs_app_plain isspace) by done. simpl.
    rewrite (sub_runs_id isspace _ true v) by done.
    rewrite (sub_runs_app_plain is_period) by done. simpl.
    by rewrite (sub_runs_id is_period _ false v) by done.
Qed.

Lemma clean_column_label_collision_witness :
  clean_column_label (lit "first" ++ [SP] ++ lit "name")
  = lit "first" ++ ["_"%char] ++ lit "name"
  ∧ clean_column_label (lit "first" ++ ["."%char] ++ lit "name")
    = lit "first" ++ ["_"%char] ++ lit "name"
  ∧ clean_column_label (lit "first" ++ [SP; "."%char; SP] ++ lit "name")
    = lit "first" ++ ["_"%char; "_"%char; "_"%char] ++ lit "name".
Proof.
  apply (clean_column_label_collision (lit "first") (lit "name")); try done.
  - repeat constructor.
  - repeat constructor.
Defined.

(** X23. With [drop_first_col] the import removes the first column and
    nothing else when the labels are distinct, keeps the cells and the
    order of the other columns and cleans their labels; on a table without
    columns it raises [IndexError]. *)
Theorem import_csv_and_clean_cols_drop (df : frame) :
  NoDup df.*1 →
  import_csv_and_clean_cols df true
  = match df with
    | [] => None
    | _ :: rest => Some (prod_map clean_column_label id <$> rest)
    end.
Proof.
  intros Hnd. destruct df as [|[label col] rest]; [done|].
  unfold import_csv_and_clean_cols. simpl. f_equal.
  assert (drop_column label ((label, col) :: rest) = rest) as ->.
  { unfold drop_column. rewrite filter_cons_False by (simpl; auto).
    csimpl in Hnd. apply NoDup_cons in Hnd as [Hnotin _].
    clear -Hnotin. induction rest as [|[l c] rest IH]; [done|].
    csimpl in Hnotin. apply not_elem_of_cons in Hnotin as [Hne Hnotin].
    rewrite filter_cons_True by (simpl; auto). by rewrite IH. }
  apply zip_fmap_fst_snd.
Qed.

Lemma import_csv_and_clean_cols_drop_witness :
  import_csv_and_clean_cols
    [(lit "Unnamed: 0", [PyStr (lit "0")]);
     (lit "Out Email", [PyStr (lit "a@b.c")]);
     (lit "Out.Cell Phone ", [PyNaN])] true
  = Some [(lit "out_email", [PyStr (lit "a@b.c")]);
          (lit "out_cell_phone", [PyNaN])].
Proof.
  apply (import_csv_and_clean_cols_drop
           [(lit "Unnamed: 0", [PyStr (lit "0")]);
            (lit "Out Email", [PyStr (lit "a@b.c")]);
            (lit "Out.Cell Phone ", [PyNaN])]).
  apply (bool_decide_unpack _). by vm_compute.
Defined.

(** X24. After an import without dropping, a column is found under its
    cleaned label with its cells unchanged, provided the cleaned labels are
    distinct. *)
Theorem import_csv_and_clean_cols_lookup (df : frame)
    (label : pystr) (col : list pyval) :
  NoDup (clean_column_label <$> df.*1) →
  (label, col) ∈ df →
  ∃ df',
    import_csv_and_clean_cols df false = Some df'
    ∧ as_DataFrame df'
        !! String.string_of_list_ascii (clean_column_label label)
      = Some col.
Proof.
  intros Hnd Hin. eexists. split; [reflexivity|].
  unfold set_columns, as_DataFrame. rewrite zip_fmap_fst_snd.
  apply elem_of_list_to_map_1.
  - rewrite <-!list_fmap_compose.
    rewrite (list_fmap_ext _
               (String.string_of_list_ascii ∘ (clean_column_label ∘ fst)) df)
      by (by intros ? []).
    rewrite (list_fmap_compose (clean_column_label ∘ fst)).
    apply NoDup_fmap_2.
    + intros a b Hab.
      apply (f_equal String.list_ascii_of_string) in Hab.
      by rewrite !String.list_ascii_of_string_of_list_ascii in Hab.
    + by rewrite list_fmap_compose.
  - apply list_elem_of_fmap. exists (clean_column_label label, col).
    split; [done|]. apply list_elem_of_fmap. by exists (label, col).
Qed.

Lemma import_csv_and_clean_cols_lookup_witness :
  ∃ df',
    import_csv_and_clean_cols
      [(lit "Out Email", [PyStr (lit "a@b.c")]);
       (lit "Out.Cell Phone ", [PyNaN])] false = Some df'
    ∧ as_DataFrame df'
        !! String.string_of_list_ascii (clean_column_label (lit "Out Email"))
      = Some [PyStr (lit "a@b.c")].
Proof.
  apply (import_csv_and_clean_cols_lookup
           [(lit "Out Email", [PyStr (lit "a@b.c")]);
            (lit "Out.Cell Phone ", [PyNaN])]).
  - apply (bool_decide_unpack _). by vm_compute.
  - apply list_elem_of_In. simpl. auto.
Defined.
